(** * authkeys: looking up SSH keys and group members in LDAP

    A shallow embedding of [authkeys.go] (the whole program is one [main]
    function) and the properties of its query and normalisation logic.

    Go values are modelled as follows.
    - [string]: a Go string is a sequence of bytes; [String.string] is a
      sequence of 8-bit characters.  Indices and lengths are Go [int]s,
      modelled in [Z].
    - [[]string]: [list string].
    - [*ldap.Entry]: the ordered list of its attributes, each a name with its
      ordered values; lookups return the first attribute of that name.
    - a run of the program ends in one of three ways: [main] returns,
      [log.Fatal] exits the process, or a run-time panic unwinds it. *)

From Stdlib Require Import ZArith List String Ascii Bool Lia.
From Stdlib Require Import DecimalString.
Import ListNotations.

Local Open Scope string_scope.
Local Open Scope Z_scope.

(* ================================================================= *)
(** ** How a computation ends *)

(** Run-time panics raised by indexing and slicing. *)
Inductive panic : Type :=
| IndexOutOfRange (i len : Z)
| SliceBoundsOutOfRange (lo hi len : Z).

(** The [log.Fatal]/[log.Fatalf] call sites of [main], in source order. *)
Inductive fatal : Type :=
| FatalUsage            (* "Not enough parameters specified (or too many)..." *)
| FatalDial             (* net.DialTimeout failed *)
| FatalReadRootCA       (* "Unable to read RootCAFile: %s" *)
| FatalAppendCerts      (* "Unable to append to CertPool from RootCAFile" *)
| FatalStartTLS         (* "Unable to start TLS connection: %s" *)
| FatalBind             (* "Unable to bind: %s" *)
| FatalSearch           (* the primary l.Search failed *)
| FatalNoEntries        (* "No entries returned from LDAP" *)
| FatalTooManyEntries   (* "Too many entries returned from LDAP" *)
| FatalUserSearch       (* the per-member l.Search failed *)
| FatalMarshal.         (* json.Marshal failed *)

Inductive outcome (A : Type) : Type :=
| Ret (a : A)
| Fatal (f : fatal)
| Panic (p : panic).

Arguments Ret {A} a.
Arguments Fatal {A} f.
Arguments Panic {A} p.

(** The error kinds of the design's taxonomy, and the kind each fatal site
    belongs to.  The usage error is raised by the command-line layer and has
    no kind of its own. *)
Inductive error_kind : Type :=
| ConnectionError | TLSError | BindError | QueryError | UsageError.

Definition kind_of (f : fatal) : error_kind :=
  match f with
  | FatalUsage => UsageError
  | FatalDial => ConnectionError
  | FatalReadRootCA | FatalAppendCerts | FatalStartTLS => TLSError
  | FatalBind => BindError
  | FatalSearch | FatalNoEntries | FatalTooManyEntries
  | FatalUserSearch | FatalMarshal => QueryError
  end.

(* ================================================================= *)
(** ** The parts of Go's [strings] package and of the language used *)

Module strings.

(** [len(s)] *)
Definition len (s : string) : Z := Z.of_nat (String.length s).

(** Offset of the first occurrence of [sep] in [s], if any. *)
Fixpoint find (s sep : string) : option nat :=
  if prefix sep s then Some O
  else match s with
       | EmptyString => None
       | String _ s' => option_map S (find s' sep)
       end.

(** [strings.Index]: the offset of the first occurrence, or -1. *)
Definition Index (s sep : string) : Z :=
  match find s sep with
  | Some n => Z.of_nat n
  | None => -1
  end.

(** [strings.Contains(s, substr)] is [Index(s, substr) >= 0]. *)
Definition Contains (s substr : string) : bool := 0 <=? Index s substr.

(** The slice expression [s[lo:hi]], which panics unless
    [0 <= lo <= hi <= len(s)]. *)
Definition slice (s : string) (lo hi : Z) : outcome string :=
  if (0 <=? lo) && (lo <=? hi) && (hi <=? len s)
  then Ret (substring (Z.to_nat lo) (Z.to_nat (hi - lo)) s)
  else Panic (SliceBoundsOutOfRange lo hi (len s)).

(** [s[n:]] for an offset within the string. *)
Fixpoint drop (n : nat) (s : string) : string :=
  match n, s with
  | O, _ => s
  | S _, EmptyString => EmptyString
  | S n', String _ s' => drop n' s'
  end.

(** The loop of [genSplit] for a non-empty separator: cut at each
    occurrence of [sep]; the fuel bounds the number of cuts, and
    [length s] cuts are always enough. *)
Fixpoint split_loop (fuel : nat) (s sep : string) : list string :=
  match fuel with
  | O => [s]
  | S fuel' =>
      match find s sep with
      | None => [s]
      | Some m =>
          substring 0 m s
            :: split_loop fuel' (drop (m + String.length sep) s) sep
      end
  end.

(** [explode] on single-byte characters (the empty-separator case of
    [strings.Split]; [main] never uses it). *)
Fixpoint explode (s : string) : list string :=
  match s with
  | EmptyString => []
  | String c s' => String c EmptyString :: explode s'
  end.

(** [strings.Split(s, sep)] *)
Definition Split (s sep : string) : list string :=
  match sep with
  | EmptyString => explode s
  | _ => split_loop (String.length s) s sep
  end.

End strings.

(** The index expression [xs[i]] on a slice. *)
Definition index {A : Type} (xs : list A) (i : Z) : outcome A :=
  if (0 <=? i) && (i <? Z.of_nat (List.length xs))
  then match nth_error xs (Z.to_nat i) with
       | Some x => Ret x
       | None => Panic (IndexOutOfRange i (Z.of_nat (List.length xs)))
       end
  else Panic (IndexOutOfRange i (Z.of_nat (List.length xs))).

(** [fmt.Sprintf("%d", n)] *)
Definition sprint_d (n : Z) : string := NilZero.string_of_int (Z.to_int n).

(** Wrap-around of a 64-bit signed integer ([int], [time.Duration]). *)
Definition wrap64 (n : Z) : Z := (n + 2 ^ 63) mod 2 ^ 64 - 2 ^ 63.

(* ================================================================= *)
(** ** Data model *)

(** [type AuthkeysConfig struct] *)
Record AuthkeysConfig : Type := {
  BaseDN        : string;
  GroupObject   : string;
  DialTimeout   : Z;
  KeyAttribute  : string;
  LDAPServer    : string;
  LDAPPort      : Z;
  RootCAFile    : string;
  UserAttribute : string;
  UserPostfix   : string;
  BindDN        : string;
  BindPW        : string
}.

(** [type User struct] *)
Record User : Type := {
  Uid           : string;
  UidNumber     : string;
  GidNumber     : string;
  MemberOf      : list string;
  HomeDirectory : string;
  Shell         : string
}.

(** The types and the two accessors of [gopkg.in/ldap.v2] that [main] uses. *)
Module ldap.

Inductive scope : Type := ScopeBaseObject | ScopeSingleLevel | ScopeWholeSubtree.

Inductive deref : Type :=
  NeverDerefAliases | DerefInSearching | DerefFindingBaseObj | DerefAlways.

(** [ldap.SearchRequest], as filled in by [ldap.NewSearchRequest]; the
    controls are always [nil] here and are left out. *)
Record SearchRequest : Type := NewSearchRequest {
  BaseDN       : string;
  Scope        : scope;
  DerefAliases : deref;
  SizeLimit    : Z;
  TimeLimit    : Z;
  TypesOnly    : bool;
  Filter       : string;
  Attributes   : list string
}.

(** [ldap.EntryAttribute]: a name and its values. *)
Definition EntryAttribute : Type := (string * list string)%type.

(** [ldap.Entry]: the attributes in the order the directory sent them. *)
Definition Entry : Type := list EntryAttribute.

(** [Entry.GetAttributeValues]: the values of the first attribute with
    that name, or the empty slice. *)
Fixpoint GetAttributeValues (e : Entry) (attribute : string) : list string :=
  match e with
  | [] => []
  | (name, values) :: e' =>
      if String.eqb name attribute then values
      else GetAttributeValues e' attribute
  end.

(** [Entry.GetAttributeValue]: the first of those values, or [""]. *)
Definition GetAttributeValue (e : Entry) (attribute : string) : string :=
  match GetAttributeValues e attribute with
  | [] => ""
  | v :: _ => v
  end.

End ldap.

(** [tls.Config], with the fields [main] sets; the certificate pool is
    represented by the PEM text it was filled from. *)
Record tls_Config : Type := {
  InsecureSkipVerify : bool;
  ServerName         : string;
  RootCAs            : option string
}.

(** What one invocation is given: the configuration (loaded before the core
    runs), the raw argument vector and the values of the two flags. *)
Record Invocation : Type := {
  config   : AuthkeysConfig;
  os_Args  : list string;
  groupPtr : string;     (* -group *)
  minPtr   : string      (* -min *)
}.

(** The outside world: how the network, the file system, the directory and
    the JSON encoder answer.  [None] and [false] stand for a returned
    error.  [handshake_failed] tells, of a [StartTLS] that returned an error,
    whether the error is a failed TLS handshake (the server had accepted the
    request) rather than a request that could not be sent or was refused. *)
Record World : Type := {
  net_DialTimeout    : string -> Z -> bool;
  ioutil_ReadFile    : string -> option string;
  AppendCertsFromPEM : string -> bool;
  conn_StartTLS      : tls_Config -> bool;
  handshake_failed   : tls_Config -> bool;
  conn_Bind          : string -> string -> bool;
  conn_Search        : ldap.SearchRequest -> option (list ldap.Entry);
  json_Marshal       : list User -> option string
}.

(** Observable actions of a run. *)
Inductive event : Type :=
| EvDial (addr : string) (timeout : Z)
| EvStart
| EvReadFile (fname : string)
| EvStartTLS (cfg : tls_Config)
| EvBind (dn pw : string)
| EvSearch (req : ldap.SearchRequest)
| EvPrint (s : string)
| EvClose.

(** The actions performed so far, most recent first. *)
Definition trace : Type := list event.

(* ================================================================= *)
(** ** The monad of a run: a trace threaded through, three ways to end *)

Definition M (A : Type) : Type := trace -> outcome A * trace.

Definition ret {A : Type} (a : A) : M A := fun t => (Ret a, t).

Definition bind {A B : Type} (m : M A) (k : A -> M B) : M B :=
  fun t =>
    match m t with
    | (Ret a, t') => k a t'
    | (Fatal f, t') => (Fatal f, t')
    | (Panic p, t') => (Panic p, t')
    end.

Notation "x <- m ;; k" := (bind m (fun x => k))
  (at level 61, m at next level, right associativity).
Notation "m ;;; k" := (bind m (fun _ => k))
  (at level 61, right associativity).

(** A pure step that may panic. *)
Definition lift {A : Type} (o : outcome A) : M A := fun t => (o, t).

(** [log.Fatal]: the process exits at once. *)
Definition log_Fatal {A : Type} (f : fatal) : M A := fun t => (Fatal f, t).

Definition emit (e : event) : M unit := fun t => (Ret tt, e :: t).

(** [defer d] followed by [body]: the deferred call runs when the function
    returns and when a panic unwinds it; [log.Fatal] ends in [os.Exit],
    which runs no deferred calls. *)
Definition defer {A : Type} (d : M unit) (body : M A) : M A :=
  fun t =>
    match body t with
    | (Ret a, t') => (Ret a, snd (d t'))
    | (Panic p, t') => (Panic p, snd (d t'))
    | (Fatal f, t') => (Fatal f, t')
    end.

(* ================================================================= *)
(** ** The program *)

(** The literal [cn := "cn="] of [main]. *)
Definition cn : string := "cn=".

(** Lines 205-209: the common name of each raw membership value, appended
    to [memberOf] in order. *)
Definition group_name (raw : string) : outcome string :=
  let cnLoc := strings.Index raw cn in
  let termLoc := strings.Index raw "," in
  strings.slice raw (cnLoc + strings.len cn) termLoc.

Fixpoint range_rawMemberOf (rawMemberOf memberOf : list string)
  : outcome (list string) :=
  match rawMemberOf with
  | [] => Ret memberOf
  | raw :: rest =>
      match group_name raw with
      | Ret g => range_rawMemberOf rest (memberOf ++ [g])
      | Fatal f => Fatal f
      | Panic p => Panic p
      end
  end.

(** Lines 210-213: an empty list is replaced by the queried group. *)
Definition default_group (group : string) (memberOf : list string) : list string :=
  if (Z.of_nat (List.length memberOf) =? 0) then memberOf ++ [group] else memberOf.

(** Lines 214-221: only the part of the [uid] value before an [@]. *)
Definition entry_username (entry : ldap.Entry) : outcome string :=
  if strings.Contains (ldap.GetAttributeValue entry "uid") "@" then
    let email := ldap.GetAttributeValue entry "uid" in
    let components := strings.Split email "@" in
    index components 0
  else Ret (ldap.GetAttributeValue entry "uid").

(** Lines 91-95. *)
Definition attributes_of (minPtr : string) : list string :=
  if negb (String.eqb minPtr "")
  then ["uid"; "uidNumber"; "gidNumber"; "homeDirectory"; "loginShell"]
  else ["uid"; "uidNumber"; "gidNumber"; "memberOf"; "homeDirectory"; "loginShell"].

(** Lines 99-104, in nanoseconds. *)
Definition conntimeout_of (c : AuthkeysConfig) : Z :=
  if negb (DialTimeout c =? 0)
  then wrap64 (DialTimeout c * 1000000000)
  else wrap64 (5 * 1000000000).

Section Run.

Variable W : World.
Variable inv : Invocation.

Local Abbreviation c := (config inv).

(** [l.Search(req)] over the one connection of the run; an error is fatal
    with the given site. *)
Definition l_Search (site : fatal) (req : ldap.SearchRequest) : M (list ldap.Entry) :=
  emit (EvSearch req) ;;;
  match conn_Search W req with
  | Some entries => ret entries
  | None => log_Fatal site
  end.

(** [l.Close()] *)
Definition l_Close : M unit := emit EvClose.

(** Lines 80-89: the mode and, for a key lookup, the name to look up. *)
Definition parse_mode : M (bool * string) :=
  if negb (String.eqb (groupPtr inv) "") then ret (true, "")
  else if negb (Z.of_nat (List.length (os_Args inv)) =? 2) then log_Fatal FatalUsage
  else
    arg <- lift (index (os_Args inv) 1) ;;
    ret (false, arg ++ UserPostfix c).

(** Lines 105-112: dial with the bounded timeout and start the connection. *)
Definition dial : M unit :=
  let addr := LDAPServer c ++ ":" ++ sprint_d (LDAPPort c) in
  emit (EvDial addr (conntimeout_of c)) ;;;
  if net_DialTimeout W addr (conntimeout_of c)
  then emit EvStart
  else log_Fatal FatalDial.

(** Lines 115-132: the TLS configuration, with the extra trust root. *)
Definition make_tlsConfig : M tls_Config :=
  let tlsConfig := {| InsecureSkipVerify := false;
                      ServerName := LDAPServer c;
                      RootCAs := None |} in
  if negb (String.eqb (RootCAFile c) "") then
    emit (EvReadFile (RootCAFile c)) ;;;
    match ioutil_ReadFile W (RootCAFile c) with
    | None => log_Fatal FatalReadRootCA
    | Some rootCAFile =>
        if negb (AppendCertsFromPEM W rootCAFile)
        then log_Fatal FatalAppendCerts
        else ret {| InsecureSkipVerify := false;
                    ServerName := LDAPServer c;
                    RootCAs := Some rootCAFile |}
    end
  else ret tlsConfig.

(** Lines 134-138.  [Conn.StartTLS] of the library closes the connection
    itself ([l.Close()]) when the TLS handshake fails, before it returns
    the error; on its other errors it leaves the connection as it is. *)
Definition start_tls (tlsConfig : tls_Config) : M unit :=
  emit (EvStartTLS tlsConfig) ;;;
  if conn_StartTLS W tlsConfig then ret tt
  else
    (if handshake_failed W tlsConfig then l_Close else ret tt) ;;;
    log_Fatal FatalStartTLS.

(** Lines 140-146. *)
Definition bind_service : M unit :=
  if negb (String.eqb (BindDN c) "") && negb (String.eqb (BindPW c) "") then
    emit (EvBind (BindDN c) (BindPW c)) ;;;
    if conn_Bind W (BindDN c) (BindPW c) then ret tt else log_Fatal FatalBind
  else ret tt.

(** Lines 148-166: the primary search request. *)
Definition searchRequest_of (listUsers : bool) (username : string)
  : ldap.SearchRequest :=
  if listUsers then
    ldap.NewSearchRequest (BaseDN c)
      ldap.ScopeWholeSubtree ldap.NeverDerefAliases 0 0 false
      ("(&(objectClass=inetOrgPerson)(memberOf=cn=" ++ groupPtr inv
         ++ ",ou=" ++ GroupObject c ++ "," ++ BaseDN c ++ "))")
      (attributes_of (minPtr inv))
  else
    ldap.NewSearchRequest (BaseDN c)
      ldap.ScopeWholeSubtree ldap.NeverDerefAliases 0 0 false
      ("(" ++ UserAttribute c ++ "=" ++ username ++ ")")
      [KeyAttribute c].

(** Lines 173-177: the check on the number of entries. *)
Definition check_entries (listUsers : bool) (entries : list ldap.Entry) : M unit :=
  if Z.of_nat (List.length entries) =? 0 then log_Fatal FatalNoEntries
  else if negb listUsers && (1 <? Z.of_nat (List.length entries))
       then log_Fatal FatalTooManyEntries
       else ret tt.

(** Lines 187-193: the per-member request of the minimal integration. *)
Definition userSearchRequest_of (value : string) : ldap.SearchRequest :=
  ldap.NewSearchRequest (BaseDN c)
    ldap.ScopeWholeSubtree ldap.NeverDerefAliases 0 0 false
    ("(" ++ UserAttribute c ++ "=" ++ value ++ ")")
    ["memberOf"].

(** Lines 198-200: every returned entry overwrites [rawMemberOf]. *)
Definition range_userEntries (userEntries : list ldap.Entry)
    (rawMemberOf : list string) : list string :=
  fold_left (fun _ userEntry => ldap.GetAttributeValues userEntry "memberOf")
            userEntries rawMemberOf.

(** Lines 184-201: the raw membership values of one entry. *)
Definition entry_rawMemberOf (entry : ldap.Entry) : M (list string) :=
  let rawMemberOf := ldap.GetAttributeValues entry "memberOf" in
  if negb (String.eqb (minPtr inv) "") then
    value <- lift (index (ldap.GetAttributeValues entry (UserAttribute c)) 0) ;;
    userEntries <- l_Search FatalUserSearch (userSearchRequest_of value) ;;
    ret (range_userEntries userEntries rawMemberOf)
  else ret rawMemberOf.

(** Lines 184-233: the body of the loop over the entries of a group. *)
Definition entry_User (entry : ldap.Entry) : M User :=
  rawMemberOf <- entry_rawMemberOf entry ;;
  memberOf <- lift (range_rawMemberOf rawMemberOf []) ;;
  let memberOf := default_group (groupPtr inv) memberOf in
  username <- lift (entry_username entry) ;;
  let homeDir := ldap.GetAttributeValue entry "homeDirectory" in
  let loginShell := ldap.GetAttributeValue entry "loginShell" in
  ret {| Uid := username;
         UidNumber := ldap.GetAttributeValue entry "uidNumber";
         GidNumber := ldap.GetAttributeValue entry "gidNumber";
         MemberOf := memberOf;
         HomeDirectory := homeDir;
         Shell := loginShell |}.

(** Line 183: [for _, entry := range sr.Entries], appending to [Users]. *)
Fixpoint range_entries (entries : list ldap.Entry) (Users : list User)
  : M (list User) :=
  match entries with
  | [] => ret Users
  | entry :: rest =>
      u <- entry_User entry ;;
      range_entries rest (Users ++ [u])
  end.

(** [fmt.Printf("%s\n", s)] *)
Definition print_line (s : string) : M unit :=
  emit (EvPrint (s ++ String (ascii_of_nat 10) "")).

(** Lines 244-246. *)
Fixpoint range_keys (keys : list string) : M unit :=
  match keys with
  | [] => ret tt
  | key :: rest => print_line key ;;; range_keys rest
  end.

(** Lines 242-247. *)
Fixpoint range_key_entries (attribute : string) (entries : list ldap.Entry)
  : M unit :=
  match entries with
  | [] => ret tt
  | entry :: rest =>
      range_keys (ldap.GetAttributeValues entry attribute) ;;;
      range_key_entries attribute rest
  end.

(** Lines 181-248: normalise and print. *)
Definition report (listUsers : bool) (entries : list ldap.Entry) : M unit :=
  if listUsers then
    Users <- range_entries entries [] ;;
    match json_Marshal W Users with
    | None => log_Fatal FatalMarshal
    | Some myUsers => print_line myUsers
    end
  else range_key_entries (KeyAttribute c) entries.

(** Lines 148-248: everything done once the channel is authenticated. *)
Definition lookup (listUsers : bool) (username : string) : M unit :=
  entries <- l_Search FatalSearch (searchRequest_of listUsers username) ;;
  check_entries listUsers entries ;;;
  report listUsers entries.

(** Lines 115-146: encrypt and authenticate the started connection. *)
Definition secure : M unit :=
  tlsConfig <- make_tlsConfig ;;
  start_tls tlsConfig ;;;
  bind_service.

(** [func main()], from line 77 on. *)
Definition main : M unit :=
  mode <- parse_mode ;;
  dial ;;;
  defer l_Close
    (secure ;;;
     lookup (fst mode) (snd mode)).

End Run.

(** A run starts with nothing done. *)
Definition run (W : World) (inv : Invocation) : outcome unit * trace :=
  main W inv [].

(** The lines written to standard output, oldest first. *)
Definition stdout (t : trace) : list string :=
  rev (flat_map (fun e => match e with EvPrint s => [s] | _ => [] end) t).

(** The search requests sent, oldest first. *)
Definition searches (t : trace) : list ldap.SearchRequest :=
  rev (flat_map (fun e => match e with EvSearch r => [r] | _ => [] end) t).

(* ================================================================= *)
(** ** Vocabulary of the statements *)

Definition is_panic {A : Type} (o : outcome A) : Prop := exists p, o = Panic p.

(** A property of traces that every step of a computation keeps. *)
Definition preserves (P : trace -> Prop) {A : Type} (m : M A) : Prop :=
  forall t, P t -> P (snd (m t)).

(** A property of traces that survives recording the event [e]. *)
Definition allows (P : trace -> Prop) (e : event) : Prop :=
  forall t, P t -> P (e :: t).

(** *** The two halves of [main] *)

(** Everything up to the authenticated channel: lines 77-146 without the
    [defer].  A run whose first half returns has established the
    connection. *)
Definition establish (W : World) (inv : Invocation) : M (bool * string) :=
  mode <- parse_mode inv ;;
  dial W inv ;;;
  secure W inv ;;;
  ret mode.

(** The connection was started and never closed. *)
Definition open_connection (t : trace) : Prop := In EvStart t /\ ~ In EvClose t.

(** The fatal errors that [main] raises itself once the connection is
    started, no call on the connection having failed: an unreadable or
    unusable trust-root file, a wrong number of entries, a failed
    encoding. *)
Definition raised_by_main (f : fatal) : Prop :=
  match f with
  | FatalReadRootCA | FatalAppendCerts
  | FatalNoEntries | FatalTooManyEntries | FatalMarshal => True
  | _ => False
  end.

Definition no_close (t : trace) : Prop := ~ In EvClose t.

Definition no_print (t : trace) : Prop := stdout t = [].

(** What [main] does after the [defer], as one computation. *)
Definition deferred_body (W : World) (inv : Invocation) (mode : bool * string)
  : M unit :=
  secure W inv ;;; lookup W inv (fst mode) (snd mode).

(** The record assembled from an entry, its group names and its identity. *)
Definition assemble (group : string) (entry : ldap.Entry) (names : list string)
    (name : string) : User :=
  {| Uid := name;
     UidNumber := ldap.GetAttributeValue entry "uidNumber";
     GidNumber := ldap.GetAttributeValue entry "gidNumber";
     MemberOf := default_group group names;
     HomeDirectory := ldap.GetAttributeValue entry "homeDirectory";
     Shell := ldap.GetAttributeValue entry "loginShell" |}.

(* ================================================================= *)
(** ** Sample configuration, directory contents and worlds *)

Module Sample.

Definition cfg : AuthkeysConfig :=
  {| BaseDN := "dc=example,dc=com"; GroupObject := "groups"; DialTimeout := 0;
     KeyAttribute := "sshPublicKey"; LDAPServer := "ldap.example.com";
     LDAPPort := 389; RootCAFile := ""; UserAttribute := "uid";
     UserPostfix := ""; BindDN := ""; BindPW := "" |}.

Definition admins_dn : string := "cn=admins,ou=groups,dc=example,dc=com".

Definition alice : ldap.Entry :=
  [("uid", ["alice"]); ("uidNumber", ["1000"]); ("gidNumber", ["100"]);
   ("memberOf", [admins_dn]); ("homeDirectory", ["/home/alice"]);
   ("loginShell", ["/bin/sh"])].

Definition bob : ldap.Entry :=
  [("uid", ["bob@example.com"]); ("uidNumber", ["1001"]); ("gidNumber", ["100"]);
   ("memberOf", [admins_dn]); ("homeDirectory", ["/home/bob"]);
   ("loginShell", ["/bin/sh"])].

(** The same two members as a directory without reverse membership lists
    them. *)
Definition alice_min : ldap.Entry :=
  [("uid", ["alice"]); ("uidNumber", ["1000"]); ("gidNumber", ["100"]);
   ("homeDirectory", ["/home/alice"]); ("loginShell", ["/bin/sh"])].

Definition bob_min : ldap.Entry :=
  [("uid", ["bob@example.com"]); ("uidNumber", ["1001"]); ("gidNumber", ["100"]);
   ("homeDirectory", ["/home/bob"]); ("loginShell", ["/bin/sh"])].

(** A stand-in for the JSON encoder: identities and groups only. *)
Definition show_users (us : list User) : option string :=
  Some (String.concat ";"
          (map (fun u => Uid u ++ ":" ++ String.concat "," (MemberOf u))%string us)).

(** A world in which every step succeeds and every search returns [reply]. *)
Definition world (reply : ldap.SearchRequest -> option (list ldap.Entry)) : World :=
  {| net_DialTimeout := fun _ _ => true;
     ioutil_ReadFile := fun _ => None;
     AppendCertsFromPEM := fun _ => true;
     conn_StartTLS := fun _ => true;
     handshake_failed := fun _ => false;
     conn_Bind := fun _ _ => true;
     conn_Search := reply;
     json_Marshal := show_users |}.

(** [authkeys <user>] *)
Definition user_lookup (c : AuthkeysConfig) (user : string) : Invocation :=
  {| config := c; os_Args := ["authkeys"; user]; groupPtr := ""; minPtr := "" |}.

(** [authkeys -group <group>] and [authkeys -group <group> -min <min>] *)
Definition group_lookup (c : AuthkeysConfig) (group min : string) : Invocation :=
  {| config := c; os_Args := ["authkeys"; "-group"; group];
     groupPtr := group; minPtr := min |}.

(** A directory holding no matching entry. *)
Definition empty_directory : World := world (fun _ => Some []).

(** A directory holding the two members with their memberships. *)
Definition full_directory : World := world (fun _ => Some [alice; bob]).

(** A directory that lists the two members of a group without memberships
    and answers every per-member query with [reply]. *)
Definition minimal_directory (reply : list ldap.Entry) : World :=
  world (fun req =>
           match ldap.Attributes req with
           | ["memberOf"] => Some reply
           | _ => Some [alice_min; bob_min]
           end).


(** The sample configuration with another identity attribute. *)
Definition cfg_with_identity (attribute : string) : AuthkeysConfig :=
  {| BaseDN := BaseDN cfg; GroupObject := GroupObject cfg;
     DialTimeout := DialTimeout cfg; KeyAttribute := KeyAttribute cfg;
     LDAPServer := LDAPServer cfg; LDAPPort := LDAPPort cfg;
     RootCAFile := RootCAFile cfg; UserAttribute := attribute;
     UserPostfix := UserPostfix cfg; BindDN := BindDN cfg; BindPW := BindPW cfg |}.

End Sample.

(* ================================================================= *)
(** ** Loading the configuration (lines 49-75) *)

(** What the process is started in: its environment, the file system as
    [os.Stat] sees it, and the JSON decoder filling an [AuthkeysConfig]. *)
Record Host : Type := {
  os_Getenv      : string -> string;
  os_Stat        : string -> bool;                      (* [err == nil] *)
  json_Unmarshal : string -> option AuthkeysConfig
}.

(** The two [panic(err)] of [NewConfig]. *)
Inductive config_panic : Type :=
| PanicReadFile (fname : string)
| PanicUnmarshal (fname : string).

Inductive loaded : Type :=
| Loaded (c : AuthkeysConfig)
| LoadPanic (p : config_panic).

(** [var config AuthkeysConfig]: the zero value. *)
Definition zero_config : AuthkeysConfig :=
  {| BaseDN := ""; GroupObject := ""; DialTimeout := 0; KeyAttribute := "";
     LDAPServer := ""; LDAPPort := 0; RootCAFile := ""; UserAttribute := "";
     UserPostfix := ""; BindDN := ""; BindPW := "" |}.

(** [func NewConfig(fname string) AuthkeysConfig] *)
Definition NewConfig (H : Host) (W : World) (fname : string) : loaded :=
  match ioutil_ReadFile W fname with
  | None => LoadPanic (PanicReadFile fname)
  | Some data =>
      match json_Unmarshal H data with
      | None => LoadPanic (PanicUnmarshal fname)
      | Some config => Loaded config
      end
  end.

(** Lines 68-72. *)
Definition configfile_of (H : Host) : string :=
  if String.eqb (os_Getenv H "AUTHKEYS_CONFIG") "" then "/etc/authkeys.json"
  else os_Getenv H "AUTHKEYS_CONFIG".

(** Lines 63-75. *)
Definition load_config (H : Host) (W : World) : loaded :=
  if os_Stat H (configfile_of H) then NewConfig H W (configfile_of H)
  else Loaded zero_config.

(** How the process ends: in [main] proper, or in a panic of [NewConfig]
    before anything else is done. *)
Inductive exit : Type :=
| ExitRun (o : outcome unit) (t : trace)
| ExitConfigPanic (p : config_panic).

(** [main] from its first line: the configuration is loaded, then the
    flags and arguments are read and the lookup runs. *)
Definition program (H : Host) (W : World) (args : list string)
    (group min : string) : exit :=
  match load_config H W with
  | LoadPanic p => ExitConfigPanic p
  | Loaded c =>
      let r := run W {| config := c; os_Args := args;
                        groupPtr := group; minPtr := min |} in
      ExitRun (fst r) (snd r)
  end.

(* ================================================================= *)
(** ** Further vocabulary *)

(** The line terminator of [fmt.Printf("%s\n", ...)]. *)
Definition newline : string := String (ascii_of_nat 10) "".

(** The trust roots a handshake must carry under a configuration: none
    without [RootCAFile], else the text of that file, read and accepted. *)
Definition expected_roots (W : World) (c : AuthkeysConfig)
    (roots : option string) : Prop :=
  if String.eqb (RootCAFile c) "" then roots = None
  else exists pem,
      ioutil_ReadFile W (RootCAFile c) = Some pem
      /\ AppendCertsFromPEM W pem = true
      /\ roots = Some pem.

(** A handshake configuration as [main] must build it. *)
Definition tls_config_good (W : World) (c : AuthkeysConfig) (cfg : tls_Config)
  : Prop :=
  InsecureSkipVerify cfg = false
  /\ ServerName cfg = LDAPServer c
  /\ expected_roots W c (RootCAs cfg).

(** A handshake that succeeded is on record. *)
Definition tls_started (W : World) (t : trace) : Prop :=
  exists cfg, In (EvStartTLS cfg) t /\ conn_StartTLS W cfg = true.

(** Both parts of the service identity are configured. *)
Definition bind_configured (c : AuthkeysConfig) : bool :=
  negb (String.eqb (BindDN c) "") && negb (String.eqb (BindPW c) "").

(** The per-member request of an entry (lines 187-193). *)
Definition member_request (inv : Invocation) (entry : ldap.Entry)
  : ldap.SearchRequest :=
  userSearchRequest_of inv
    (ldap.GetAttributeValue entry (UserAttribute (config inv))).

(** Events that carry credentials or queries to the directory. *)
Definition traffic (e : event) : Prop :=
  match e with
  | EvBind _ _ | EvSearch _ => True
  | _ => False
  end.

Definition is_search (e : event) : Prop :=
  match e with
  | EvSearch _ => True
  | _ => False
  end.

(** In the trace [t] (most recent first), every [guarded] event happened
    when [ready] already held of what had been done before it. *)
Definition guarded_by (guarded : event -> Prop) (ready : trace -> Prop)
    (t : trace) : Prop :=
  forall after e before,
    t = (after ++ e :: before)%list -> guarded e -> ready before.

(** The service identity was presented and accepted. *)
Definition bound (W : World) (c : AuthkeysConfig) (t : trace) : Prop :=
  In (EvBind (BindDN c) (BindPW c)) t /\ conn_Bind W (BindDN c) (BindPW c) = true.

(** Variations of a configuration, one field changed. *)
Module Variant.

Definition with_DialTimeout (c : AuthkeysConfig) (seconds : Z) : AuthkeysConfig :=
  {| BaseDN := BaseDN c; GroupObject := GroupObject c; DialTimeout := seconds;
     KeyAttribute := KeyAttribute c; LDAPServer := LDAPServer c;
     LDAPPort := LDAPPort c; RootCAFile := RootCAFile c;
     UserAttribute := UserAttribute c; UserPostfix := UserPostfix c;
     BindDN := BindDN c; BindPW := BindPW c |}.

Definition with_RootCAFile (c : AuthkeysConfig) (fname : string) : AuthkeysConfig :=
  {| BaseDN := BaseDN c; GroupObject := GroupObject c; DialTimeout := DialTimeout c;
     KeyAttribute := KeyAttribute c; LDAPServer := LDAPServer c;
     LDAPPort := LDAPPort c; RootCAFile := fname;
     UserAttribute := UserAttribute c; UserPostfix := UserPostfix c;
     BindDN := BindDN c; BindPW := BindPW c |}.

Definition with_bind (c : AuthkeysConfig) (dn pw : string) : AuthkeysConfig :=
  {| BaseDN := BaseDN c; GroupObject := GroupObject c; DialTimeout := DialTimeout c;
     KeyAttribute := KeyAttribute c; LDAPServer := LDAPServer c;
     LDAPPort := LDAPPort c; RootCAFile := RootCAFile c;
     UserAttribute := UserAttribute c; UserPostfix := UserPostfix c;
     BindDN := dn; BindPW := pw |}.

(** A world in which every step succeeds, the trust-root file reads as
    [pem], and every search returns [entries]. *)
Definition world_with_file (pem : string) (entries : list ldap.Entry) : World :=
  {| net_DialTimeout := fun _ _ => true;
     ioutil_ReadFile := fun _ => Some pem;
     AppendCertsFromPEM := fun _ => true;
     conn_StartTLS := fun _ => true;
     handshake_failed := fun _ => false;
     conn_Bind := fun _ _ => true;
     conn_Search := fun _ => Some entries;
     json_Marshal := Sample.show_users |}.

(** A world in which [StartTLS] returns an error, after a failed handshake
    or not. *)
Definition world_failing_tls (handshake : bool) : World :=
  {| net_DialTimeout := fun _ _ => true;
     ioutil_ReadFile := fun _ => None;
     AppendCertsFromPEM := fun _ => true;
     conn_StartTLS := fun _ => false;
     handshake_failed := fun _ => handshake;
     conn_Bind := fun _ _ => true;
     conn_Search := fun _ => Some [];
     json_Marshal := Sample.show_users |}.

(** A host without a configuration file. *)
Definition bare_host : Host :=
  {| os_Getenv := fun _ => ""; os_Stat := fun _ => false;
     json_Unmarshal := fun _ => None |}.

End Variant.

(* ================================================================= *)
(** ** The string operations on examples *)

Example Index_first : strings.Index "a,b,c" "," = 1.
Proof. reflexivity. Qed.
Example Index_absent : strings.Index "abc" "," = -1.
Proof. reflexivity. Qed.
Example Split_email : strings.Split "bob@example.com@x" "@" = ["bob"; "example.com"; "x"].
Proof. reflexivity. Qed.
Example Split_none : strings.Split "bob" "@" = ["bob"].
Proof. reflexivity. Qed.
Example Split_trailing : strings.Split "a@" "@" = ["a"; ""].
Proof. reflexivity. Qed.

(* ================================================================= *)
(** ** Facts about the string operations *)

Lemma prefix_nil (s : string) : prefix "" s = true.
Proof. destruct s; reflexivity. Qed.

Lemma prefix_single (ch a : ascii) (s : string) :
  prefix (String ch "") (String a s) = Ascii.eqb ch a.
Proof.
  simpl. destruct (ascii_dec ch a) as [->|Hne].
  - now rewrite prefix_nil, Ascii.eqb_refl.
  - symmetry. now apply Ascii.eqb_neq.
Qed.

Lemma prefix_app (p s : string) : prefix p (p ++ s) = true.
Proof.
  induction p as [|a p IH]; simpl.
  - apply prefix_nil.
  - destruct (ascii_dec a a); [exact IH | congruence].
Qed.

Lemma length_app (a b : string) :
  String.length (a ++ b) = (String.length a + String.length b)%nat.
Proof. induction a; simpl; congruence. Qed.

Lemma substring_0_app (a b : string) : substring 0 (String.length a) (a ++ b) = a.
Proof. induction a; simpl; [destruct b; reflexivity | congruence]. Qed.

Lemma substring_skip (a b : string) (n : nat) :
  substring (String.length a) n (a ++ b) = substring 0 n b.
Proof. induction a; simpl; auto. Qed.

Lemma substring_middle (a b d : string) :
  substring (String.length a) (String.length b) (a ++ b ++ d) = b.
Proof. now rewrite substring_skip, substring_0_app. Qed.

Lemma find_prefix (p s : string) : strings.find (p ++ s) p = Some O.
Proof.
  destruct p as [|a p]; simpl.
  - destruct s; reflexivity.
  - destruct (ascii_dec a a); [|congruence]. now rewrite prefix_app.
Qed.

Lemma find_cons (a : ascii) (s sep : string) :
  strings.find (String a s) sep =
  if prefix sep (String a s) then Some O else option_map S (strings.find s sep).
Proof. reflexivity. Qed.

Lemma find_le (s sep : string) (n : nat) :
  strings.find s sep = Some n -> (n <= String.length s)%nat.
Proof.
  revert n. induction s as [|a s IH]; intros n.
  - destruct sep; simpl; intros H; inversion H; lia.
  - rewrite find_cons. destruct (prefix sep (String a s)).
    + intros H; inversion H; lia.
    + destruct (strings.find s sep) as [m|]; simpl; intros H; inversion H.
      specialize (IH m eq_refl). lia.
Qed.

Lemma Index_bounds (s sep : string) :
  -1 <= strings.Index s sep <= strings.len s.
Proof.
  unfold strings.Index, strings.len.
  destruct (strings.find s sep) as [n|] eqn:E.
  - apply find_le in E. lia.
  - lia.
Qed.

(** Searching for a single character. *)
Section SingleChar.

Variable ch : ascii.
Local Abbreviation sep := (String ch "").

Lemma find_single_cons (a : ascii) (s : string) :
  strings.find (String a s) sep =
  if Ascii.eqb ch a then Some O else option_map S (strings.find s sep).
Proof.
  now rewrite find_cons, prefix_single.
Qed.

Lemma find_single_nil : strings.find "" sep = None.
Proof. reflexivity. Qed.

(** The first occurrence is just after a part that has none. *)
Lemma find_single_app (a b : string) :
  strings.find a sep = None ->
  strings.find (a ++ String ch b) sep = Some (String.length a).
Proof.
  induction a as [|x a IH]; intros H.
  - simpl ((_ ++ _)%string). rewrite find_single_cons. now rewrite Ascii.eqb_refl.
  - rewrite find_single_cons in H.
    simpl ((_ ++ _)%string). rewrite find_single_cons.
    destruct (Ascii.eqb ch x); [discriminate|].
    destruct (strings.find a sep); [discriminate|].
    now rewrite IH.
Qed.

(** Conversely a first occurrence cuts the string in this way. *)
Lemma find_single_cut (s : string) (m : nat) :
  strings.find s sep = Some m ->
  exists b, s = (substring 0 m s ++ String ch b)%string
            /\ String.length (substring 0 m s) = m
            /\ strings.find (substring 0 m s) sep = None.
Proof.
  revert m. induction s as [|x s IH]; intros m H.
  - discriminate.
  - rewrite find_single_cons in H.
    destruct (Ascii.eqb ch x) eqn:E.
    + inversion H; subst m. apply Ascii.eqb_eq in E; subst x.
      exists s. now simpl.
    + destruct (strings.find s sep) as [k|] eqn:F; [|discriminate].
      inversion H; subst m.
      destruct (IH k eq_refl) as (b & Hs & Hl & Hn).
      exists b. cbn [substring String.length append]. repeat split.
      * now rewrite <- Hs.
      * now rewrite Hl.
      * rewrite find_single_cons, E, Hn. reflexivity.
Qed.

End SingleChar.

Lemma Contains_false_find (s sep : string) :
  strings.Contains s sep = false <-> strings.find s sep = None.
Proof.
  unfold strings.Contains, strings.Index.
  destruct (strings.find s sep) as [n|]; split; intros H;
    try discriminate; try reflexivity.
  apply Z.leb_gt in H. lia.
Qed.

Lemma Contains_true_find (s sep : string) :
  strings.Contains s sep = true <-> exists n, strings.find s sep = Some n.
Proof.
  unfold strings.Contains, strings.Index.
  destruct (strings.find s sep) as [n|]; split; intros H.
  - now exists n.
  - apply Z.leb_le. lia.
  - discriminate.
  - destruct H as [n H]. discriminate.
Qed.

(* ================================================================= *)
(** ** Extraction of the group name (lines 203-209) *)

(** The slice of [group_name] is in range exactly when the first comma is
    not before the end of the first [cn=] (with [Index]'s -1 for "absent"
    on either side). *)
Lemma group_name_cases (raw : string) :
  let cnLoc := strings.Index raw cn in
  let termLoc := strings.Index raw "," in
  (termLoc < cnLoc + strings.len cn /\
   group_name raw =
     Panic (SliceBoundsOutOfRange (cnLoc + strings.len cn) termLoc (strings.len raw)))
  \/
  (cnLoc + strings.len cn <= termLoc /\
   group_name raw =
     Ret (substring (Z.to_nat (cnLoc + strings.len cn))
                    (Z.to_nat (termLoc - (cnLoc + strings.len cn))) raw)).
Proof.
  intros cnLoc termLoc. unfold group_name, strings.slice.
  fold cnLoc termLoc.
  pose proof (Index_bounds raw cn) as Hc.
  pose proof (Index_bounds raw ",") as Ht.
  fold cnLoc in Hc. fold termLoc in Ht.
  change (strings.len cn) with 3.
  destruct (Z.leb_spec 0 (cnLoc + 3)); [|lia].
  destruct (Z.leb_spec termLoc (strings.len raw)); [|lia].
  destruct (Z.leb_spec (cnLoc + 3) termLoc); simpl; [right | left]; split;
    auto; lia.
Qed.

(** C3. For every membership string [cn=<name>,<rest>] in which [<name>]
    runs up to the first comma (it contains none itself), the extracted group
    name is exactly [<name>], whatever [<rest>] is. *)
Theorem group_name_of_cn_prefixed (name rest : string) :
  strings.Contains name "," = false ->
  group_name (cn ++ name ++ "," ++ rest) = Ret name.
Proof.
  intros Hname. apply Contains_false_find in Hname.
  assert (Hcn : strings.Index (cn ++ name ++ "," ++ rest) cn = 0).
  { unfold strings.Index. now rewrite find_prefix. }
  assert (Hterm : strings.Index (cn ++ name ++ "," ++ rest) ","
                  = 3 + strings.len name).
  { unfold strings.Index, strings.len.
    replace (cn ++ name ++ "," ++ rest)%string
      with ((cn ++ name) ++ String "," rest)%string by reflexivity.
    rewrite find_single_app.
    - rewrite length_app. simpl String.length. lia.
    - unfold cn. simpl ((_ ++ _)%string).
      rewrite !find_single_cons. simpl. now rewrite Hname. }
  destruct (group_name_cases (cn ++ name ++ "," ++ rest)) as [[Hlt _]|[_ ->]].
  - rewrite Hcn, Hterm in Hlt. change (strings.len cn) with 3 in Hlt.
    unfold strings.len in Hlt. lia.
  - rewrite Hcn, Hterm. f_equal.
    replace (Z.to_nat (0 + strings.len cn)) with (String.length cn) by reflexivity.
    replace (Z.to_nat (3 + strings.len name - (0 + strings.len cn)))
      with (String.length name)
      by (unfold strings.len; simpl String.length; lia).
    apply substring_middle.
Qed.

Lemma group_name_of_cn_prefixed_witness :
  group_name "cn=admins,ou=groups,dc=example,dc=com" = Ret "admins".
Proof.
  apply (group_name_of_cn_prefixed "admins" "ou=groups,dc=example,dc=com").
  reflexivity.
Defined.

(** C8. Extraction is partial: a membership value without a comma, or whose
    first comma comes before the end of its first [cn=] (the marker's offset
    plus the three characters of the marker), makes the slice expression
    panic; on every other value, and only there, a name is returned. *)
Theorem group_name_partial (raw : string) :
  (strings.Contains raw "," = false -> is_panic (group_name raw)) /\
  (strings.Index raw "," < strings.Index raw cn + 3 -> is_panic (group_name raw)) /\
  (strings.Index raw cn + 3 <= strings.Index raw "," ->
   exists g, group_name raw = Ret g) /\
  ((exists g, group_name raw = Ret g) ->
   strings.Index raw cn + 3 <= strings.Index raw ",").
Proof.
  pose proof (Index_bounds raw cn) as Hc.
  destruct (group_name_cases raw) as [[Hlt Hp]|[Hle Hr]];
    change (strings.len cn) with 3 in *.
  - repeat split; intros H.
    + eexists; exact Hp.
    + eexists; exact Hp.
    + lia.
    + destruct H as [g H]. rewrite Hp in H. discriminate.
  - repeat split; intros H.
    + apply Contains_false_find in H. unfold strings.Index in Hle at 2.
      rewrite H in Hle. lia.
    + lia.
    + eexists; exact Hr.
    + exact Hle.
Qed.

Lemma group_name_partial_witness :
  is_panic (group_name "admins")
  /\ is_panic (group_name "x,cn=admins")
  /\ (exists g, group_name "cn=admins,ou=groups" = Ret g)
  /\ strings.Index "cn=admins,ou=groups" cn + 3 <= strings.Index "cn=admins,ou=groups" ",".
Proof.
  split; [|split; [|split]].
  - apply (proj1 (group_name_partial "admins")). reflexivity.
  - apply (proj1 (proj2 (group_name_partial "x,cn=admins"))). reflexivity.
  - apply (proj1 (proj2 (proj2 (group_name_partial "cn=admins,ou=groups")))).
    vm_compute. discriminate.
  - apply (proj2 (proj2 (proj2 (group_name_partial "cn=admins,ou=groups")))).
    exists "admins". reflexivity.
Defined.

(** A panic on one value ends the whole loop over the values. *)
Lemma range_rawMemberOf_panics (before : list string) (raw : string)
      (after acc : list string) :
  (exists done, range_rawMemberOf before acc = Ret done) ->
  is_panic (group_name raw) ->
  is_panic (range_rawMemberOf (before ++ raw :: after) acc).
Proof.
  revert acc. induction before as [|b before IH]; intros acc [done Hd] [p Hp].
  - simpl. rewrite Hp. now exists p.
  - simpl in *. destruct (group_name b); try discriminate.
    apply IH; [now exists done | now exists p].
Qed.

Example group_name_without_marker : group_name "ou=x,dc=y" = Ret "=x".
Proof. reflexivity. Qed.

(* ================================================================= *)
(** ** Normalisation of the identity (lines 214-221) *)

(** The first component of a split at a character that occurs. *)
Lemma Split_single_first (ch : ascii) (s : string) (m : nat) :
  strings.find s (String ch "") = Some m ->
  exists rest, strings.Split s (String ch "") = substring 0 m s :: rest.
Proof.
  intros H. unfold strings.Split.
  destruct s as [|a s]; [discriminate|].
  cbn [String.length strings.split_loop]. rewrite H. eauto.
Qed.

Lemma index_head {A : Type} (x : A) (xs : list A) : index (x :: xs) 0 = Ret x.
Proof.
  unfold index. cbn [List.length].
  destruct (Z.ltb_spec 0 (Z.of_nat (S (List.length xs)))); [reflexivity | lia].
Qed.

Lemma index_nil {A : Type} (i : Z) : index (@nil A) i = Panic (IndexOutOfRange i 0).
Proof.
  unfold index. cbn [List.length].
  destruct (Z.leb_spec 0 i); destruct (Z.ltb_spec i (Z.of_nat 0)); simpl;
    try reflexivity; lia.
Qed.

(** The identity step never panics. *)
Lemma entry_username_total (entry : ldap.Entry) :
  exists name, entry_username entry = Ret name.
Proof.
  unfold entry_username.
  destruct (strings.Contains (ldap.GetAttributeValue entry "uid") "@") eqn:E.
  - apply Contains_true_find in E. destruct E as [m E].
    destruct (Split_single_first _ _ _ E) as [rest ->].
    rewrite index_head. eauto.
  - eauto.
Qed.

(** C4. When the [uid] value contains an [@], the identity is the part of
    the value before its first [@]; when it contains none, the identity is
    the value unchanged. *)
Theorem entry_username_spec (entry : ldap.Entry) :
  let value := ldap.GetAttributeValue entry "uid" in
  (strings.Contains value "@" = true ->
   exists before after,
     value = (before ++ "@" ++ after)%string
     /\ strings.Contains before "@" = false
     /\ entry_username entry = Ret before)
  /\ (strings.Contains value "@" = false -> entry_username entry = Ret value).
Proof.
  intros value. unfold entry_username. fold value. split; intros H; rewrite H.
  - apply Contains_true_find in H. destruct H as [m H].
    destruct (find_single_cut _ _ _ H) as (after & Hv & _ & Hnone).
    destruct (Split_single_first _ _ _ H) as [rest ->].
    exists (substring 0 m value), after. split; [|split].
    + exact Hv.
    + now apply Contains_false_find.
    + apply index_head.
  - reflexivity.
Qed.

Lemma entry_username_spec_witness :
  (exists before after,
      "bob@example.com@x" = (before ++ "@" ++ after)%string
      /\ strings.Contains before "@" = false
      /\ entry_username [("uid", ["bob@example.com@x"; "other"])] = Ret before)
  /\ entry_username [("cn", ["Alice"]); ("uid", ["alice"])] = Ret "alice".
Proof.
  split.
  - apply (proj1 (entry_username_spec [("uid", ["bob@example.com@x"; "other"])])).
    reflexivity.
  - apply (proj2 (entry_username_spec [("cn", ["Alice"]); ("uid", ["alice"])])).
    reflexivity.
Defined.

(** The cut is unique, so the identity of [before@after] is [before]. *)
Lemma entry_username_of_email (entry : ldap.Entry) (before after : string) :
  ldap.GetAttributeValue entry "uid" = (before ++ "@" ++ after)%string ->
  strings.Contains before "@" = false ->
  entry_username entry = Ret before.
Proof.
  intros Hv Hb. apply Contains_false_find in Hb.
  pose proof (find_single_app "@" before after Hb) as Hf.
  change (before ++ String "@" after)%string with (before ++ "@" ++ after)%string in Hf.
  unfold entry_username. rewrite Hv.
  replace (strings.Contains (before ++ "@" ++ after) "@") with true
    by (symmetry; apply Contains_true_find; eauto).
  destruct (Split_single_first _ _ _ Hf) as [rest ->].
  rewrite index_head. f_equal. apply substring_0_app.
Qed.

Example entry_username_absent : entry_username [("cn", ["x"])] = Ret "".
Proof. reflexivity. Qed.

(* ================================================================= *)
(** ** Reasoning about runs *)

Lemma bind_Ret {A B : Type} (m : M A) (k : A -> M B) (t t' : trace) (a : A) :
  m t = (Ret a, t') -> bind m k t = k a t'.
Proof. unfold bind. now intros ->. Qed.

Lemma bind_Fatal {A B : Type} (m : M A) (k : A -> M B) (t t' : trace) (f : fatal) :
  m t = (Fatal f, t') -> bind m k t = (Fatal f, t').
Proof. unfold bind. now intros ->. Qed.

Lemma bind_Panic {A B : Type} (m : M A) (k : A -> M B) (t t' : trace) (p : panic) :
  m t = (Panic p, t') -> bind m k t = (Panic p, t').
Proof. unfold bind. now intros ->. Qed.

Lemma preserves_ret (P : trace -> Prop) {A : Type} (a : A) : preserves P (ret a).
Proof. intros t H. exact H. Qed.

Lemma preserves_lift (P : trace -> Prop) {A : Type} (o : outcome A) :
  preserves P (lift o).
Proof. intros t H. exact H. Qed.

Lemma preserves_log_Fatal (P : trace -> Prop) {A : Type} (f : fatal) :
  preserves P (@log_Fatal A f).
Proof. intros t H. exact H. Qed.

Lemma preserves_emit (P : trace -> Prop) (e : event) :
  allows P e -> preserves P (emit e).
Proof. intros He t H. apply He, H. Qed.

Lemma preserves_bind (P : trace -> Prop) {A B : Type} (m : M A) (k : A -> M B) :
  preserves P m -> (forall a, preserves P (k a)) -> preserves P (bind m k).
Proof.
  intros Hm Hk t H. unfold bind.
  specialize (Hm t H). destruct (m t) as [[a|f|p] t']; simpl in *; auto.
  now apply Hk.
Qed.

Ltac preserve :=
  repeat first
    [ apply preserves_ret
    | apply preserves_lift
    | apply preserves_log_Fatal
    | apply preserves_emit; solve [auto]
    | apply preserves_bind; [|intros ?]
    | match goal with
      | |- preserves _ (if ?b then _ else _) => destruct b
      | |- preserves _ (match ?x with _ => _ end) => destruct x
      end ].

Section Preservation.

Variable P : trace -> Prop.
Variable W : World.
Variable inv : Invocation.

Lemma parse_mode_preserves : preserves P (parse_mode inv).
Proof. unfold parse_mode. preserve. Qed.

Lemma parse_mode_silent (t : trace) : snd (parse_mode inv t) = t.
Proof.
  unfold parse_mode.
  destruct (negb (groupPtr inv =? "")%string); [reflexivity|].
  destruct (negb (Z.of_nat (List.length (os_Args inv)) =? 2)); [reflexivity|].
  unfold bind, lift. destruct (index (os_Args inv) 1); reflexivity.
Qed.

Hypothesis allows_dial : forall addr timeout, allows P (EvDial addr timeout).
Hypothesis allows_start : allows P EvStart.
Hypothesis allows_readfile : forall fname, allows P (EvReadFile fname).
Hypothesis allows_starttls : forall cfg, allows P (EvStartTLS cfg).
Hypothesis allows_bind : forall dn pw, allows P (EvBind dn pw).
Hypothesis allows_search : forall req, allows P (EvSearch req).
Hypothesis allows_close : allows P EvClose.

Lemma dial_preserves : preserves P (dial W inv).
Proof. unfold dial. preserve. Qed.

Lemma secure_preserves : preserves P (secure W inv).
Proof.
  unfold secure, make_tlsConfig, start_tls, bind_service, l_Close. preserve.
Qed.

Lemma l_Search_preserves (site : fatal) (req : ldap.SearchRequest) :
  preserves P (l_Search W site req).
Proof. unfold l_Search. preserve. Qed.

Lemma entry_User_preserves (entry : ldap.Entry) :
  preserves P (entry_User W inv entry).
Proof.
  unfold entry_User, entry_rawMemberOf. preserve; apply l_Search_preserves.
Qed.

Lemma range_entries_preserves (entries : list ldap.Entry) (Users : list User) :
  preserves P (range_entries W inv entries Users).
Proof.
  revert Users. induction entries as [|e es IH]; intros Users; simpl.
  - apply preserves_ret.
  - apply preserves_bind; [apply entry_User_preserves | intros u; apply IH].
Qed.

Lemma check_entries_preserves (listUsers : bool) (entries : list ldap.Entry) :
  preserves P (check_entries listUsers entries).
Proof. unfold check_entries. preserve. Qed.

Hypothesis allows_print : forall s, allows P (EvPrint s).

Lemma range_keys_preserves (keys : list string) : preserves P (range_keys keys).
Proof.
  induction keys as [|k ks IH]; simpl.
  - apply preserves_ret.
  - unfold print_line. preserve. exact IH.
Qed.

Lemma range_key_entries_preserves (attribute : string) (entries : list ldap.Entry) :
  preserves P (range_key_entries attribute entries).
Proof.
  induction entries as [|e es IH]; simpl.
  - apply preserves_ret.
  - apply preserves_bind; [apply range_keys_preserves | intros _; exact IH].
Qed.

Lemma report_preserves (listUsers : bool) (entries : list ldap.Entry) :
  preserves P (report W inv listUsers entries).
Proof.
  unfold report. destruct listUsers.
  - apply preserves_bind; [apply range_entries_preserves|].
    intros Users. unfold print_line. preserve.
  - apply range_key_entries_preserves.
Qed.

Lemma lookup_preserves (listUsers : bool) (username : string) :
  preserves P (lookup W inv listUsers username).
Proof.
  unfold lookup.
  apply preserves_bind; [apply l_Search_preserves|]. intros entries.
  apply preserves_bind; [apply check_entries_preserves|]. intros _.
  apply report_preserves.
Qed.

End Preservation.

Lemma no_close_allows (e : event) : e <> EvClose -> allows no_close e.
Proof. intros He t H [Heq|Hin]; [congruence | exact (H Hin)]. Qed.

Lemma stdout_cons (e : event) (t : trace) :
  stdout (e :: t) = (stdout t ++ match e with EvPrint s => [s] | _ => [] end)%list.
Proof. unfold stdout. simpl. rewrite rev_app_distr. now destruct e. Qed.

Lemma searches_cons (e : event) (t : trace) :
  searches (e :: t) = (searches t ++ match e with EvSearch r => [r] | _ => [] end)%list.
Proof. unfold searches. simpl. rewrite rev_app_distr. now destruct e. Qed.

Lemma no_print_allows (e : event) :
  (forall s, e <> EvPrint s) -> allows no_print e.
Proof.
  intros He t H. unfold no_print in *. rewrite stdout_cons, H.
  destruct e; try reflexivity. now elim (He s).
Qed.

Lemma In_allows (e0 e : event) : allows (In e0) e.
Proof. intros t H. now right. Qed.

Ltac allowed_events :=
  first [ intros; apply In_allows
        | intros; apply no_close_allows; discriminate
        | intros; apply no_print_allows; discriminate ].

(** The first half prints nothing, and leaves the connection started and
    open when it returns. *)
Lemma establish_preserves (P : trace -> Prop) (W : World) (inv : Invocation) :
  (forall e, (forall s, e <> EvPrint s) -> allows P e) ->
  preserves P (establish W inv).
Proof.
  intros HP. unfold establish.
  apply preserves_bind; [apply parse_mode_preserves|]. intros mode.
  apply preserves_bind;
    [apply dial_preserves; intros; apply HP; discriminate|]. intros _.
  apply preserves_bind;
    [apply secure_preserves; intros; apply HP; discriminate|]. intros _.
  apply preserves_ret.
Qed.

Lemma establish_no_print (W : World) (inv : Invocation) (o : outcome (bool * string))
      (t : trace) :
  establish W inv [] = (o, t) -> stdout t = [].
Proof.
  intros H.
  pose proof (@establish_preserves no_print W inv) as Hp.
  change t with (snd (o, t)). rewrite <- H. apply Hp; [|reflexivity].
  intros e He. now apply no_print_allows.
Qed.

(** Only a failed handshake makes the securing stage close the
    connection. *)
Lemma secure_no_close (W : World) (inv : Invocation) (t t' : trace)
      (o : outcome unit) :
  secure W inv t = (o, t') -> ~ In EvClose t ->
  o = Fatal FatalStartTLS \/ ~ In EvClose t'.
Proof.
  intros H Hn. revert H.
  unfold secure, make_tlsConfig, start_tls, bind_service, l_Close,
    bind, emit, ret, log_Fatal.
  destruct (negb (RootCAFile (config inv) =? "")%string);
    try destruct (ioutil_ReadFile W (RootCAFile (config inv))) as [pem|];
    try destruct (negb (AppendCertsFromPEM W pem));
    try destruct (conn_StartTLS W _);
    try destruct (handshake_failed W _);
    try destruct (negb (BindDN (config inv) =? "")%string
                  && negb (BindPW (config inv) =? "")%string);
    try destruct (conn_Bind W _ _);
    intros H; injection H as <- <-;
    first [ now left
          | right; intros Hin; cbn [In] in Hin;
            repeat (destruct Hin as [Hin|Hin]; [discriminate Hin|]);
            exact (Hn Hin) ].
Qed.

Lemma establish_no_close (W : World) (inv : Invocation) (mode : bool * string)
      (t : trace) :
  establish W inv [] = (Ret mode, t) -> ~ In EvClose t.
Proof.
  unfold establish. unfold bind at 1.
  pose proof (parse_mode_silent inv []) as Hs.
  destruct (parse_mode inv []) as [[m|f|p] t0]; cbn in Hs; subst t0;
    try discriminate.
  unfold bind at 1.
  assert (Hd : ~ In EvClose (snd (dial W inv []))).
  { unfold dial, bind, emit, log_Fatal.
    destruct (net_DialTimeout W _ _); cbn [snd];
      intros Hin; cbn [In] in Hin;
      repeat (destruct Hin as [Hin|Hin]; [discriminate Hin|]);
      exact Hin. }
  destruct (dial W inv []) as [[[]|f|p] t1]; cbn [snd] in Hd; try discriminate.
  unfold bind.
  destruct (secure W inv t1) as [[[]|f|p] t2] eqn:Es; try discriminate.
  intros H; injection H as _ <-.
  destruct (secure_no_close _ _ _ _ _ Es Hd) as [Hf|Hc];
    [discriminate | exact Hc].
Qed.

Lemma establish_no_search (W : World) (inv : Invocation) (o : outcome (bool * string))
      (t : trace) :
  establish W inv [] = (o, t) -> searches t = [].
Proof.
  intros H.
  assert (Hp : preserves (fun t => searches t = []) (establish W inv)).
  { unfold establish.
    assert (Ha : forall e, (forall r, e <> EvSearch r) ->
                           allows (fun t => searches t = []) e).
    { intros e He t0 H0. rewrite searches_cons, H0.
      destruct e; try reflexivity. now elim (He req). }
    apply preserves_bind; [apply parse_mode_preserves|]. intros mode.
    unfold dial, secure, make_tlsConfig, start_tls, bind_service, l_Close.
    preserve; apply preserves_emit, Ha; discriminate. }
  change t with (snd (o, t)). rewrite <- H. now apply Hp.
Qed.

(** When the first half returns, the connection is started and open. *)
Lemma establish_started (W : World) (inv : Invocation) (mode : bool * string)
      (t : trace) :
  establish W inv [] = (Ret mode, t) -> open_connection t.
Proof.
  intros H. split; [|exact (establish_no_close _ _ _ _ H)].
  revert H. unfold establish, bind.
  rewrite (surjective_pairing (parse_mode inv [])), parse_mode_silent.
  destruct (fst (parse_mode inv [])) as [m|f|p]; try discriminate.
  unfold dial at 1. unfold bind, emit.
  destruct (net_DialTimeout W _ _); [|discriminate].
  assert (Hs : preserves (In EvStart) (secure W inv))
    by (apply secure_preserves; allowed_events).
  match goal with |- context [secure W inv ?t0] => specialize (Hs t0) end.
  destruct (secure W inv _) as [[[]|f|p] t1]; try discriminate.
  intros H; inversion H; subst. apply Hs. now left.
Qed.

(** [main] is its first half followed, under the deferred close, by the
    lookup. *)
Lemma main_after_establish (W : World) (inv : Invocation) (mode : bool * string)
      (t : trace) :
  establish W inv [] = (Ret mode, t) ->
  run W inv = defer l_Close (lookup W inv (fst mode) (snd mode)) t.
Proof.
  unfold run, main, establish, bind, defer.
  destruct (parse_mode inv []) as [[m|f|p] t0]; try discriminate.
  destruct (dial W inv t0) as [[[]|f|p] t1]; try discriminate.
  destruct (secure W inv t1) as [[[]|f|p] t2]; try discriminate.
  intros H; inversion H; subst. reflexivity.
Qed.

(** When the first half ends in a fatal error, so does [main], there and
    then. *)
Lemma main_establish_fatal (W : World) (inv : Invocation) (f : fatal) (t : trace) :
  establish W inv [] = (Fatal f, t) -> run W inv = (Fatal f, t).
Proof.
  unfold run, main, establish, bind, defer.
  destruct (parse_mode inv []) as [[m|f0|p] t0]; try discriminate.
  - destruct (dial W inv t0) as [[[]|f1|p] t1]; try discriminate.
    + destruct (secure W inv t1) as [[[]|f2|p] t2]; try discriminate.
      intros H; inversion H; subst. reflexivity.
    + intros H; inversion H; subst. reflexivity.
  - intros H; inversion H; subst. reflexivity.
Qed.

(* ================================================================= *)
(** ** The number of entries (lines 168-177) *)

Lemma l_Search_Some (W : World) (site : fatal) (req : ldap.SearchRequest)
      (entries : list ldap.Entry) (t : trace) :
  conn_Search W req = Some entries ->
  l_Search W site req t = (Ret entries, EvSearch req :: t).
Proof. intros H. unfold l_Search, bind, emit. now rewrite H. Qed.

Lemma l_Search_None (W : World) (site : fatal) (req : ldap.SearchRequest) (t : trace) :
  conn_Search W req = None ->
  l_Search W site req t = (Fatal site, EvSearch req :: t).
Proof. intros H. unfold l_Search, bind, emit. now rewrite H. Qed.

Lemma lookup_Some (W : World) (inv : Invocation) (listUsers : bool)
      (username : string) (entries : list ldap.Entry) (t : trace) :
  conn_Search W (searchRequest_of inv listUsers username) = Some entries ->
  lookup W inv listUsers username t =
  (check_entries listUsers entries ;;; report W inv listUsers entries)
    (EvSearch (searchRequest_of inv listUsers username) :: t).
Proof. intros H. unfold lookup. now rewrite (bind_Ret _ _ _ _ _ (l_Search_Some _ _ _ _ _ H)). Qed.

(** C2. In either mode, when the connection is established and the search
    returns no entry, the run ends in the fatal error "No entries returned
    from LDAP", a [QueryError], right after the search, and nothing has been
    written to standard output. *)
Theorem zero_entries_fatal (W : World) (inv : Invocation) (listUsers : bool)
        (username : string) (t : trace) :
  establish W inv [] = (Ret (listUsers, username), t) ->
  conn_Search W (searchRequest_of inv listUsers username) = Some [] ->
  run W inv =
    (Fatal FatalNoEntries, EvSearch (searchRequest_of inv listUsers username) :: t)
  /\ kind_of FatalNoEntries = QueryError
  /\ stdout (snd (run W inv)) = [].
Proof.
  intros He Hs.
  assert (Hrun : run W inv =
                 (Fatal FatalNoEntries,
                  EvSearch (searchRequest_of inv listUsers username) :: t)).
  { rewrite (main_after_establish _ _ _ _ He). unfold defer.
    cbn [fst snd]. now rewrite (lookup_Some _ _ _ _ _ _ Hs). }
  split; [exact Hrun | split; [reflexivity|]].
  rewrite Hrun. cbn [snd]. rewrite stdout_cons.
  now rewrite (establish_no_print _ _ _ _ He).
Qed.

Lemma zero_entries_fatal_witness :
  fst (run Sample.empty_directory (Sample.user_lookup Sample.cfg "bob"))
    = Fatal FatalNoEntries
  /\ fst (run Sample.empty_directory (Sample.group_lookup Sample.cfg "admins" ""))
    = Fatal FatalNoEntries.
Proof.
  split.
  - exact (f_equal fst
             (proj1 (@zero_entries_fatal Sample.empty_directory
                       (Sample.user_lookup Sample.cfg "bob") false "bob" _
                       eq_refl eq_refl))).
  - exact (f_equal fst
             (proj1 (@zero_entries_fatal Sample.empty_directory
                       (Sample.group_lookup Sample.cfg "admins" "") true "" _
                       eq_refl eq_refl))).
Defined.



Lemma index_not_fatal {A : Type} (xs : list A) (i : Z) (f : fatal) :
  index xs i <> Fatal f.
Proof.
  unfold index. destruct (_ && _); [|discriminate].
  destruct (nth_error xs (Z.to_nat i)); discriminate.
Qed.



(** The loop hands every entry to the loop body, in order, and appends one
    record for each. *)
Lemma range_entries_each (W : World) (inv : Invocation) (entries : list ldap.Entry)
      (acc Users : list User) (t t' : trace) :
  range_entries W inv entries acc t = (Ret Users, t') ->
  exists new,
    Users = (acc ++ new)%list
    /\ Forall2 (fun entry u => exists ta tb, entry_User W inv entry ta = (Ret u, tb))
               entries new.
Proof.
  revert acc t. induction entries as [|e es IH]; intros acc t; simpl.
  - intros H; inversion H; subst. exists []. split; [now rewrite app_nil_r | constructor].
  - unfold bind. destruct (entry_User W inv e t) as [[u|f0|p] t0] eqn:E;
      try discriminate.
    intros H. destruct (IH _ _ H) as (new & -> & Hall).
    exists (u :: new). split.
    + now rewrite <- app_assoc.
    + constructor; [now exists t, t0 | exact Hall].
Qed.





Example group_of_two :
  run Sample.full_directory (Sample.group_lookup Sample.cfg "admins" "")
  = (Ret tt,
     [EvClose;
      EvPrint ("alice:admins;bob:admins" ++ String (ascii_of_nat 10) "");
      EvSearch (searchRequest_of (Sample.group_lookup Sample.cfg "admins" "") true "");
      EvStartTLS {| InsecureSkipVerify := false;
                    ServerName := "ldap.example.com"; RootCAs := None |};
      EvStart;
      EvDial "ldap.example.com:389" 5000000000]).
Proof. reflexivity. Qed.

(* ================================================================= *)
(** ** Release of the connection (lines 111-113 and every exit) *)

Lemma dial_returns (W : World) (inv : Invocation) (t t' : trace) :
  dial W inv t = (Ret tt, t') -> In EvStart t' /\ (~ In EvClose t -> ~ In EvClose t').
Proof.
  unfold dial, bind, emit, log_Fatal.
  destruct (net_DialTimeout W _ _); [|discriminate].
  intros H; inversion H; subst. split; [now left|].
  intros Hn [Heq|[Heq|Hin]]; try discriminate. exact (Hn Hin).
Qed.

Lemma dial_fatal (W : World) (inv : Invocation) (t t' : trace) (f : fatal) :
  dial W inv t = (Fatal f, t') -> f = FatalDial.
Proof.
  unfold dial, bind, emit, log_Fatal.
  destruct (net_DialTimeout W _ _); [discriminate|].
  intros H; inversion H; reflexivity.
Qed.

Lemma parse_mode_fatal (inv : Invocation) (t t' : trace) (f : fatal) :
  parse_mode inv t = (Fatal f, t') -> f = FatalUsage.
Proof.
  unfold parse_mode, bind, lift, log_Fatal, ret.
  destruct (negb (groupPtr inv =? "")%string); [discriminate|].
  destruct (negb (Z.of_nat (List.length (os_Args inv)) =? 2)).
  - intros H; inversion H; reflexivity.
  - destruct (index (os_Args inv) 1) eqn:E; try discriminate.
    now apply index_not_fatal in E.
Qed.

Lemma deferred_body_preserves (P : trace -> Prop) (W : World) (inv : Invocation)
      (mode : bool * string) :
  (forall e, allows P e) ->
  preserves P (deferred_body W inv mode).
Proof.
  intros HP. unfold deferred_body.
  apply preserves_bind.
  - apply secure_preserves; intros; apply HP.
  - intros _. apply lookup_preserves; intros; apply HP.
Qed.

(** Under the [defer], only a failed handshake closes the connection. *)
Lemma deferred_body_no_close (W : World) (inv : Invocation) (mode : bool * string)
      (t t' : trace) (o : outcome unit) :
  deferred_body W inv mode t = (o, t') -> ~ In EvClose t ->
  o = Fatal FatalStartTLS \/ ~ In EvClose t'.
Proof.
  intros H Hn. revert H. unfold deferred_body, bind.
  destruct (secure W inv t) as [[[]|f|p] t1] eqn:Es;
    destruct (secure_no_close _ _ _ _ _ Es Hn) as [Hf|Hc]; try discriminate.
  - intros H. right. change t' with (snd (o, t')). rewrite <- H.
    apply (lookup_preserves no_close); try exact Hc;
      intros; apply no_close_allows; discriminate.
  - intros H; injection H as <- <-. now left.
  - intros H; injection H as <- <-. now right.
  - intros H; injection H as <- <-. now right.
Qed.

Lemma main_fatal_trace (W : World) (inv : Invocation) (f : fatal) (t : trace) :
  main W inv [] = (Fatal f, t) ->
  f <> FatalUsage -> f <> FatalDial -> f <> FatalStartTLS ->
  open_connection t.
Proof.
  unfold main. unfold bind at 1.
  destruct (parse_mode inv []) as [[mode|f0|p] t0] eqn:Ep.
  - assert (Ht0 : t0 = []).
    { pose proof (parse_mode_silent inv []) as Hs. now rewrite Ep in Hs. }
    subst t0. unfold bind at 1.
    destruct (dial W inv []) as [[[]|f1|p] t1] eqn:Ed.
    + destruct (dial_returns _ _ _ _ Ed) as [Hstart Hclose].
      fold (deferred_body W inv mode). unfold defer.
      pose proof (deferred_body_preserves (In EvStart) W inv mode
                    (In_allows EvStart) t1 Hstart) as H1.
      destruct (deferred_body W inv mode t1) as [[[]|f2|p] t2] eqn:Eb;
        cbn [fst snd] in *; try discriminate.
      intros H; inversion H; subst. intros _ _ Ht.
      destruct (deferred_body_no_close _ _ _ _ _ _ Eb (Hclose (fun x => x)))
        as [Hf|Hc]; [congruence|]. split; assumption.
    + intros H; inversion H; subst. intros _ Hd.
      elim Hd. exact (dial_fatal _ _ _ _ _ Ed).
    + discriminate.
  - intros H; inversion H; subst. intros Hu.
    elim Hu. exact (parse_mode_fatal _ _ _ _ Ep).
  - discriminate.
Qed.

(** C7, as the program behaves.  When [main] itself gives up after the
    connection was started, on the trust-root file, on the number of entries
    or on the encoder, the exit through [log.Fatal] leaves the connection
    started and not closed: [os.Exit] skips the deferred [l.Close()].  The
    claim asks for the close on these paths.  (A failed handshake is closed
    by the library; the errors the library reports for a bind or a search are
    left out, the library may have shut the connection down on its own.) *)
Theorem fatal_exit_skips_close (W : World) (inv : Invocation) (f : fatal) :
  fst (run W inv) = Fatal f ->
  raised_by_main f ->
  open_connection (snd (run W inv)).
Proof.
  unfold run. destruct (main W inv []) as [o t] eqn:E. cbn [fst snd].
  intros -> Hf. apply (main_fatal_trace W inv f t E);
    intros ->; exact Hf.
Qed.

Lemma fatal_exit_skips_close_witness :
  open_connection
    (snd (run Sample.empty_directory (Sample.user_lookup Sample.cfg "bob"))).
Proof.
  apply (fatal_exit_skips_close Sample.empty_directory
           (Sample.user_lookup Sample.cfg "bob") FatalNoEntries).
  - reflexivity.
  - exact I.
Defined.

(** The exits that do run the deferred call: a return from [main] and a
    panic both end with the close. *)
Lemma other_exits_close (W : World) (inv : Invocation) :
  (forall f, fst (run W inv) <> Fatal f) ->
  exists t, snd (run W inv) = EvClose :: t.
Proof.
  unfold run. destruct (main W inv []) as [o t] eqn:E. cbn [fst snd].
  revert E. unfold main. unfold bind at 1.
  destruct (parse_mode inv []) as [[mode|f0|p] t0] eqn:Ep.
  - unfold bind at 1. destruct (dial W inv t0) as [[[]|f1|p] t1] eqn:Ed.
    + unfold defer, l_Close, emit.
      destruct (bind (secure W inv) _ t1) as [[[]|f2|p] t2]; cbn;
        intros E; inversion E; subst.
      * intros _. eexists. reflexivity.
      * intros H. now elim (H f2).
      * intros _. eexists. reflexivity.
    + intros E; inversion E; subst. intros H. now elim (H f1).
    + unfold dial, bind, emit, log_Fatal in Ed.
      destruct (net_DialTimeout W _ _); discriminate.
  - intros E; inversion E; subst. intros H. now elim (H f0).
  - unfold parse_mode, bind, lift, log_Fatal, ret in Ep.
    destruct (negb (groupPtr inv =? "")%string); [discriminate|].
    destruct (Z.eqb_spec (Z.of_nat (List.length (os_Args inv))) 2) as [Hl|Hl];
      [|discriminate]. cbn [negb] in Ep.
    destruct (os_Args inv) as [|a0 [|a1 [|a2 rest]]]; cbn in Hl; try lia.
    discriminate.
Qed.

(** A failed handshake: the library has closed the connection when
    [log.Fatalf] exits; a refused [StartTLS] leaves it as it is. *)
Example failed_handshake_run :
  run (Variant.world_failing_tls true) (Sample.user_lookup Sample.cfg "bob")
  = (Fatal FatalStartTLS,
     [EvClose;
      EvStartTLS {| InsecureSkipVerify := false;
                    ServerName := "ldap.example.com"; RootCAs := None |};
      EvStart;
      EvDial "ldap.example.com:389" 5000000000]).
Proof. reflexivity. Qed.

Example refused_starttls_run :
  run (Variant.world_failing_tls false) (Sample.user_lookup Sample.cfg "bob")
  = (Fatal FatalStartTLS,
     [EvStartTLS {| InsecureSkipVerify := false;
                    ServerName := "ldap.example.com"; RootCAs := None |};
      EvStart;
      EvDial "ldap.example.com:389" 5000000000]).
Proof. reflexivity. Qed.

Example zero_entries_run :
  run Sample.empty_directory (Sample.user_lookup Sample.cfg "bob")
  = (Fatal FatalNoEntries,
     [EvSearch (searchRequest_of (Sample.user_lookup Sample.cfg "bob") false "bob");
      EvStartTLS {| InsecureSkipVerify := false;
                    ServerName := "ldap.example.com"; RootCAs := None |};
      EvStart;
      EvDial "ldap.example.com:389" 5000000000]).
Proof. reflexivity. Qed.

(* ================================================================= *)
(** ** The loop body (lines 184-233) *)

Lemma entry_User_inv (W : World) (inv : Invocation) (entry : ldap.Entry)
      (t t' : trace) (u : User) :
  entry_User W inv entry t = (Ret u, t') ->
  exists raw names name,
    entry_rawMemberOf W inv entry t = (Ret raw, t')
    /\ range_rawMemberOf raw [] = Ret names
    /\ entry_username entry = Ret name
    /\ u = assemble (groupPtr inv) entry names name.
Proof.
  unfold entry_User, bind, lift, ret.
  destruct (entry_rawMemberOf W inv entry t) as [[raw|f|p] t0]; try discriminate.
  destruct (range_rawMemberOf raw []) as [names|f|p] eqn:En; try discriminate.
  destruct (entry_username entry) as [name|f|p] eqn:Eu; try discriminate.
  intros H; inversion H; subst. exists raw, names, name.
  split; [reflexivity | split; [exact En | split; reflexivity]].
Qed.

Lemma entry_User_intro (W : World) (inv : Invocation) (entry : ldap.Entry)
      (t t' : trace) (raw names : list string) (name : string) :
  entry_rawMemberOf W inv entry t = (Ret raw, t') ->
  range_rawMemberOf raw [] = Ret names ->
  entry_username entry = Ret name ->
  entry_User W inv entry t = (Ret (assemble (groupPtr inv) entry names name), t').
Proof.
  intros Hraw Hnames Hname. unfold entry_User, bind, lift, ret.
  now rewrite Hraw, Hnames, Hname.
Qed.

Lemma minPtr_set (inv : Invocation) :
  minPtr inv <> "" -> negb (minPtr inv =? "")%string = true.
Proof. intros H. apply String.eqb_neq in H. now rewrite H. Qed.

Lemma minPtr_unset (inv : Invocation) :
  minPtr inv = "" -> negb (minPtr inv =? "")%string = false.
Proof. intros ->. reflexivity. Qed.

(** Without the flag the entry's own values are used and nothing is sent. *)
Lemma entry_rawMemberOf_plain (W : World) (inv : Invocation) (entry : ldap.Entry)
      (t : trace) :
  minPtr inv = "" ->
  entry_rawMemberOf W inv entry t = (Ret (ldap.GetAttributeValues entry "memberOf"), t).
Proof. intros H. unfold entry_rawMemberOf. now rewrite (minPtr_unset _ H). Qed.

(** With the flag and an identity value, one search is sent. *)
Lemma entry_rawMemberOf_min (W : World) (inv : Invocation) (entry : ldap.Entry)
      (value : string) (values : list string) (t : trace) :
  minPtr inv <> "" ->
  ldap.GetAttributeValues entry (UserAttribute (config inv)) = value :: values ->
  entry_rawMemberOf W inv entry t =
  match conn_Search W (userSearchRequest_of inv value) with
  | Some userEntries =>
      (Ret (range_userEntries userEntries (ldap.GetAttributeValues entry "memberOf")),
       EvSearch (userSearchRequest_of inv value) :: t)
  | None => (Fatal FatalUserSearch, EvSearch (userSearchRequest_of inv value) :: t)
  end.
Proof.
  intros Hmin Hv. unfold entry_rawMemberOf. rewrite (minPtr_set _ Hmin), Hv.
  unfold bind at 1. unfold lift. rewrite index_head.
  unfold bind, l_Search, bind, emit, ret, log_Fatal.
  now destruct (conn_Search W _).
Qed.

(** With the flag and no identity value, the index expression panics before
    anything is sent. *)
Lemma entry_rawMemberOf_min_missing (W : World) (inv : Invocation)
      (entry : ldap.Entry) (t : trace) :
  minPtr inv <> "" ->
  ldap.GetAttributeValues entry (UserAttribute (config inv)) = [] ->
  entry_rawMemberOf W inv entry t = (Panic (IndexOutOfRange 0 0), t).
Proof.
  intros Hmin Hv. unfold entry_rawMemberOf. rewrite (minPtr_set _ Hmin), Hv.
  unfold bind, lift. now rewrite index_nil.
Qed.

Lemma range_userEntries_nil (rawMemberOf : list string) :
  range_userEntries [] rawMemberOf = rawMemberOf.
Proof. reflexivity. Qed.

Lemma range_userEntries_last (before : list ldap.Entry) (last : ldap.Entry)
      (rawMemberOf : list string) :
  range_userEntries (before ++ [last]) rawMemberOf
  = ldap.GetAttributeValues last "memberOf".
Proof. unfold range_userEntries. now rewrite fold_left_app. Qed.

Lemma default_group_nonempty (group : string) (names : list string) :
  default_group group names <> [].
Proof.
  unfold default_group. destruct names as [|n ns]; cbn; discriminate.
Qed.

Lemma default_group_nil (group : string) : default_group group [] = [group].
Proof. reflexivity. Qed.

(* ================================================================= *)
(** ** The per-member query of the minimal integration (lines 185-201) *)

Lemma entry_User_min_trace (W : World) (inv : Invocation) (entry : ldap.Entry)
      (value : string) (values : list string) (t : trace) :
  minPtr inv <> "" ->
  ldap.GetAttributeValues entry (UserAttribute (config inv)) = value :: values ->
  snd (entry_User W inv entry t) = EvSearch (userSearchRequest_of inv value) :: t.
Proof.
  intros Hmin Hv.
  unfold entry_User, bind, lift, ret.
  rewrite (entry_rawMemberOf_min W inv entry value values t Hmin Hv).
  destruct (conn_Search W _); [|reflexivity].
  destruct (range_rawMemberOf _ []); try reflexivity.
  destruct (entry_username entry); reflexivity.
Qed.




(** Over a whole group, the searches sent by the loop are one per entry, in
    the order of the entries. *)
Lemma range_entries_searches (W : World) (inv : Invocation)
      (entries : list ldap.Entry) (acc Users : list User) (t t' : trace) :
  minPtr inv <> "" ->
  range_entries W inv entries acc t = (Ret Users, t') ->
  searches t' =
  (searches t ++
   map (fun entry =>
          userSearchRequest_of inv
            (ldap.GetAttributeValue entry (UserAttribute (config inv))))
       entries)%list.
Proof.
  intros Hmin. revert acc t.
  induction entries as [|e es IH]; intros acc t; simpl.
  - intros H; inversion H; subst. now rewrite app_nil_r.
  - unfold bind.
    destruct (entry_User W inv e t) as [[u|f|p] t0] eqn:E; try discriminate.
    intros H. rewrite (IH _ _ H).
    destruct (ldap.GetAttributeValues e (UserAttribute (config inv)))
      as [|value values] eqn:Ev.
    + unfold entry_User, bind in E.
      rewrite (entry_rawMemberOf_min_missing W inv e t Hmin Ev) in E.
      discriminate.
    + pose proof (entry_User_min_trace W inv e value values t Hmin Ev) as Ht.
      rewrite E in Ht. cbn [snd] in Ht. subst t0.
      rewrite searches_cons, <- app_assoc.
      unfold ldap.GetAttributeValue. now rewrite Ev.
Qed.

(* ================================================================= *)
(** ** The group list is never empty (lines 210-213) *)

Lemma entry_User_groups_nonempty (W : World) (inv : Invocation)
      (entry : ldap.Entry) (t t' : trace) (u : User) :
  entry_User W inv entry t = (Ret u, t') -> MemberOf u <> [].
Proof.
  intros H. destruct (entry_User_inv _ _ _ _ _ _ H) as (raw & names & name & _ & _ & _ & ->).
  apply default_group_nonempty.
Qed.

Lemma range_entries_groups_nonempty (W : World) (inv : Invocation)
      (entries : list ldap.Entry) (acc Users : list User) (t t' : trace) :
  Forall (fun u => MemberOf u <> []) acc ->
  range_entries W inv entries acc t = (Ret Users, t') ->
  Forall (fun u => MemberOf u <> []) Users.
Proof.
  revert acc t. induction entries as [|e es IH]; intros acc t Hacc; simpl.
  - intros H; inversion H; subst. exact Hacc.
  - unfold bind.
    destruct (entry_User W inv e t) as [[u|f|p] t0] eqn:E; try discriminate.
    apply IH. apply Forall_app. split; [exact Hacc|].
    constructor; [|constructor]. exact (entry_User_groups_nonempty _ _ _ _ _ _ E).
Qed.

(** C6. An entry whose membership values, after the per-member query, are
    empty yields a record whose group list is exactly the queried group; and
    every record the loop hands to the encoder has a non-empty group
    list. *)
Theorem empty_membership_defaults (W : World) (inv : Invocation) :
  (forall entry t t',
      entry_rawMemberOf W inv entry t = (Ret [], t') ->
      exists u, entry_User W inv entry t = (Ret u, t')
                /\ MemberOf u = [groupPtr inv])
  /\ (forall entries Users t t',
        range_entries W inv entries [] t = (Ret Users, t') ->
        Forall (fun u => MemberOf u <> []) Users).
Proof.
  split.
  - intros entry t t' Hraw.
    destruct (entry_username_total entry) as [name Hname].
    exists (assemble (groupPtr inv) entry [] name). split; [|reflexivity].
    now apply (entry_User_intro W inv entry t t' [] [] name).
  - intros entries Users t t' H.
    apply (range_entries_groups_nonempty W inv entries [] Users t t'); [constructor | exact H].
Qed.

Lemma empty_membership_defaults_witness :
  (exists u,
      entry_User Sample.full_directory (Sample.group_lookup Sample.cfg "admins" "")
                 Sample.alice_min [] = (Ret u, [])
      /\ MemberOf u = ["admins"])
  /\ Forall (fun u => MemberOf u <> [])
            [assemble "admins" Sample.alice ["admins"] "alice";
             assemble "admins" Sample.alice_min [] "alice"].
Proof.
  split.
  - apply (proj1 (empty_membership_defaults Sample.full_directory
                    (Sample.group_lookup Sample.cfg "admins" ""))
                 Sample.alice_min [] []).
    reflexivity.
  - apply (proj2 (empty_membership_defaults Sample.full_directory
                    (Sample.group_lookup Sample.cfg "admins" ""))
                 [Sample.alice; Sample.alice_min] _ [] []).
    reflexivity.
Defined.

(* ================================================================= *)
(** ** The identity value of the per-member query (lines 186-193) *)

Lemma GetAttributeValues_absent (entry : ldap.Entry) (attribute : string) :
  (forall name values, In (name, values) entry -> name <> attribute) ->
  ldap.GetAttributeValues entry attribute = [].
Proof.
  induction entry as [|[name values] entry IH]; intros H; simpl.
  - reflexivity.
  - destruct (String.eqb_spec name attribute) as [Heq|Hne].
    + elim (H name values); [now left | exact Heq].
    + apply IH. intros n v Hin. apply (H n v). now right.
Qed.

(** C9. With the flag set, the filter of the per-member query is built from
    element 0 of the entry's values for the configured identity attribute.
    An entry with no value for that attribute makes the index expression
    panic, before any query is sent and not as one of the fatal errors; this
    is the case of every entry that carries only requested attributes when
    the configured attribute is none of the five requested. *)
Theorem missing_identity_panics (W : World) (inv : Invocation) (entry : ldap.Entry)
        (t : trace) :
  minPtr inv <> "" ->
  attributes_of (minPtr inv)
    = ["uid"; "uidNumber"; "gidNumber"; "homeDirectory"; "loginShell"]
  /\ (forall value values,
        ldap.GetAttributeValues entry (UserAttribute (config inv)) = value :: values ->
        index (ldap.GetAttributeValues entry (UserAttribute (config inv))) 0 = Ret value
        /\ snd (entry_rawMemberOf W inv entry t)
           = EvSearch (userSearchRequest_of inv value) :: t
        /\ ldap.Filter (userSearchRequest_of inv value)
           = ("(" ++ UserAttribute (config inv) ++ "=" ++ value ++ ")")%string)
  /\ (ldap.GetAttributeValues entry (UserAttribute (config inv)) = [] ->
      entry_User W inv entry t = (Panic (IndexOutOfRange 0 0), t))
  /\ (~ In (UserAttribute (config inv)) (attributes_of (minPtr inv)) ->
      (forall name values,
          In (name, values) entry -> In name (attributes_of (minPtr inv))) ->
      entry_User W inv entry t = (Panic (IndexOutOfRange 0 0), t)).
Proof.
  intros Hmin.
  assert (Hpanic : ldap.GetAttributeValues entry (UserAttribute (config inv)) = [] ->
                   entry_User W inv entry t = (Panic (IndexOutOfRange 0 0), t)).
  { intros Hv. unfold entry_User, bind.
    now rewrite (entry_rawMemberOf_min_missing W inv entry t Hmin Hv). }
  split; [|split; [|split]].
  - unfold attributes_of. now rewrite (minPtr_set _ Hmin).
  - intros value values Hv. split; [|split].
    + rewrite Hv. apply index_head.
    + rewrite (entry_rawMemberOf_min W inv entry value values t Hmin Hv).
      now destruct (conn_Search W _).
    + reflexivity.
  - exact Hpanic.
  - intros Hnot Hentry. apply Hpanic. apply GetAttributeValues_absent.
    intros name values Hin Heq. subst name. exact (Hnot (Hentry _ _ Hin)).
Qed.

Lemma missing_identity_panics_witness :
  entry_User Sample.full_directory
    (Sample.group_lookup (Sample.cfg_with_identity "sAMAccountName") "admins" "1")
    Sample.alice_min []
  = (Panic (IndexOutOfRange 0 0), []).
Proof.
  apply (proj2 (proj2 (proj2
           (missing_identity_panics Sample.full_directory
              (Sample.group_lookup (Sample.cfg_with_identity "sAMAccountName")
                                   "admins" "1")
              Sample.alice_min [] ltac:(discriminate))))).
  - cbn. intuition discriminate.
  - cbn. intros name values H.
    repeat (destruct H as [H|H]; [inversion H; subst; tauto|]).
    destruct H.
Defined.

(** The panic unwinds [main]: no record is printed, and the deferred close
    runs. *)
Example missing_identity_run :
  run (Sample.minimal_directory [])
      (Sample.group_lookup (Sample.cfg_with_identity "sAMAccountName") "admins" "1")
  = (Panic (IndexOutOfRange 0 0),
     [EvClose;
      EvSearch (searchRequest_of
                  (Sample.group_lookup (Sample.cfg_with_identity "sAMAccountName")
                                       "admins" "1") true "");
      EvStartTLS {| InsecureSkipVerify := false;
                    ServerName := "ldap.example.com"; RootCAs := None |};
      EvStart;
      EvDial "ldap.example.com:389" 5000000000]).
Proof. reflexivity. Qed.

(* ================================================================= *)
(** ** The attributes read by the normalisation (lines 183-233) *)

Lemma In_range_userEntries (userEntries : list ldap.Entry) (rawMemberOf : list string) :
  range_userEntries userEntries rawMemberOf = rawMemberOf
  \/ exists userEntry,
       In userEntry userEntries
       /\ range_userEntries userEntries rawMemberOf
          = ldap.GetAttributeValues userEntry "memberOf".
Proof.
  destruct userEntries as [|e es] using rev_ind.
  - now left.
  - right. exists e. split; [apply in_or_app; right; now left|].
    apply range_userEntries_last.
Qed.

(** C10. Whatever the configuration, a record of the group listing takes
    its group list from the values of the literal attribute [memberOf] (of
    the entry itself or, with the flag set, of an entry returned by the
    per-member query) and its identity from the value of the literal
    attribute [uid] of the entry.  The configured identity attribute only
    selects the per-member query: any two configurations under which the same
    membership values come back yield the same record. *)
Theorem normalisation_reads_fixed_attributes (W : World) (inv : Invocation)
        (entry : ldap.Entry) (t t' : trace) (u : User) :
  entry_User W inv entry t = (Ret u, t') ->
  (exists source names,
      (source = entry
       \/ (minPtr inv <> ""
           /\ exists userEntries,
               conn_Search W
                 (userSearchRequest_of inv
                    (ldap.GetAttributeValue entry (UserAttribute (config inv))))
               = Some userEntries
               /\ In source userEntries))
      /\ range_rawMemberOf (ldap.GetAttributeValues source "memberOf") [] = Ret names
      /\ MemberOf u = default_group (groupPtr inv) names)
  /\ (strings.Contains (ldap.GetAttributeValue entry "uid") "@" = false ->
      Uid u = ldap.GetAttributeValue entry "uid")
  /\ (forall before after,
        ldap.GetAttributeValue entry "uid" = (before ++ "@" ++ after)%string ->
        strings.Contains before "@" = false ->
        Uid u = before)
  /\ (forall W' inv' t0 t1 raw,
        groupPtr inv' = groupPtr inv ->
        entry_rawMemberOf W inv entry t = (Ret raw, t') ->
        entry_rawMemberOf W' inv' entry t0 = (Ret raw, t1) ->
        entry_User W' inv' entry t0 = (Ret u, t1))
  /\ (forall c',
        minPtr inv = "" ->
        entry_User W {| config := c'; os_Args := os_Args inv;
                        groupPtr := groupPtr inv; minPtr := minPtr inv |} entry t
        = (Ret u, t')).
Proof.
  intros H.
  destruct (entry_User_inv _ _ _ _ _ _ H) as (raw & names & name & Hraw & Hnames & Hname & Hu).
  split; [|split; [|split; [|split]]].
  - destruct (String.eqb_spec (minPtr inv) "") as [Hmin|Hmin].
    + rewrite (entry_rawMemberOf_plain W inv entry t Hmin) in Hraw.
      inversion Hraw; subst raw t'.
      exists entry, names. split; [now left | split; [exact Hnames | now rewrite Hu]].
    + destruct (ldap.GetAttributeValues entry (UserAttribute (config inv)))
        as [|value values] eqn:Ev.
      * rewrite (entry_rawMemberOf_min_missing W inv entry t Hmin Ev) in Hraw.
        discriminate.
      * rewrite (entry_rawMemberOf_min W inv entry value values t Hmin Ev) in Hraw.
        destruct (conn_Search W (userSearchRequest_of inv value))
          as [userEntries|] eqn:Es; [|discriminate].
        inversion Hraw; subst raw t'.
        destruct (In_range_userEntries userEntries
                    (ldap.GetAttributeValues entry "memberOf")) as [Heq|[ue [Hin Heq]]];
          rewrite Heq in Hnames.
        -- exists entry, names.
           split; [now left | split; [exact Hnames | now rewrite Hu]].
        -- exists ue, names. split; [right; split; [exact Hmin|] | split].
           ++ exists userEntries. unfold ldap.GetAttributeValue. rewrite Ev.
              split; [exact Es | exact Hin].
           ++ exact Hnames.
           ++ now rewrite Hu.
  - intros Hc. rewrite Hu. cbn [Uid assemble].
    unfold entry_username in Hname. rewrite Hc in Hname. now inversion Hname.
  - intros before after Hv Hb. rewrite Hu. cbn [Uid assemble].
    rewrite (entry_username_of_email entry before after Hv Hb) in Hname.
    now inversion Hname.
  - intros W' inv' t0 t1 raw' Hg Hraw0 Hraw1.
    rewrite Hraw in Hraw0. inversion Hraw0; subst raw'.
    rewrite Hu, <- Hg.
    exact (entry_User_intro W' inv' entry t0 t1 raw names name Hraw1 Hnames Hname).
  - intros c' Hmin. rewrite Hu.
    rewrite (entry_rawMemberOf_plain W inv entry t Hmin) in Hraw.
    inversion Hraw; subst raw t'.
    set (inv' := {| config := c'; os_Args := os_Args inv;
                    groupPtr := groupPtr inv; minPtr := minPtr inv |}).
    change (groupPtr inv) with (groupPtr inv').
    apply (entry_User_intro W inv' entry t t
             (ldap.GetAttributeValues entry "memberOf") names name);
      [|exact Hnames | exact Hname].
    now apply entry_rawMemberOf_plain.
Qed.

Lemma normalisation_reads_fixed_attributes_witness :
  Uid (assemble "admins" Sample.bob ["admins"] "bob") = "bob"
  /\ entry_User Sample.full_directory
       (Sample.group_lookup (Sample.cfg_with_identity "mail") "admins" "")
       Sample.bob []
     = (Ret (assemble "admins" Sample.bob ["admins"] "bob"), []).
Proof.
  pose (H := normalisation_reads_fixed_attributes Sample.full_directory
               (Sample.group_lookup Sample.cfg "admins" "") Sample.bob [] []
               (assemble "admins" Sample.bob ["admins"] "bob") eq_refl).
  split.
  - exact (proj1 (proj2 (proj2 H)) "bob" "example.com" eq_refl eq_refl).
  - exact (proj2 (proj2 (proj2 (proj2 H))) (Sample.cfg_with_identity "mail") eq_refl).
Defined.

(** The identity is not read from the configured attribute. *)
Example identity_from_uid :
  fst (entry_User Sample.full_directory
         (Sample.group_lookup (Sample.cfg_with_identity "cn") "admins" "")
         [("cn", ["Alice Liddell"]); ("uid", ["alice"]); ("memberOf", [Sample.admins_dn])]
         [])
  = Ret (assemble "admins"
           [("cn", ["Alice Liddell"]); ("uid", ["alice"]); ("memberOf", [Sample.admins_dn])]
           ["admins"] "alice").
Proof. reflexivity. Qed.

(* ================================================================= *)
(** ** Whole runs on the sample directories *)

(** A key lookup with one matching entry prints its keys, one per line. *)
Example key_lookup_run :
  stdout (snd (run (Sample.world
                      (fun _ => Some [[("sshPublicKey", ["ssh-rsa AAAA alice@host"])]]))
                   (Sample.user_lookup Sample.cfg "alice")))
  = ["ssh-rsa AAAA alice@host" ++ String (ascii_of_nat 10) ""]%string.
Proof. reflexivity. Qed.

(** A listing with the flag set: one search per member after the primary
    one, and the same records as with reverse membership. *)
Example minimal_group_run :
  let result := run (Sample.minimal_directory [Sample.alice])
                    (Sample.group_lookup Sample.cfg "admins" "1") in
  fst result = Ret tt
  /\ stdout (snd result) = ["alice:admins;bob:admins" ++ String (ascii_of_nat 10) ""]%string
  /\ map ldap.Filter (searches (snd result))
     = ["(&(objectClass=inetOrgPerson)(memberOf=cn=admins,ou=groups,dc=example,dc=com))";
        "(uid=alice)"; "(uid=bob@example.com)"].
Proof. repeat split. Qed.

(* ================================================================= *)
(** ** What an extracted group name looks like (lines 205-209) *)

Lemma substring_app_l (a b : string) (lo n : nat) :
  (lo + n <= String.length a)%nat ->
  substring lo n (a ++ b) = substring lo n a.
Proof.
  revert lo n. induction a as [|x a IH]; intros lo n H.
  - cbn in H. assert (lo = O) by lia. assert (n = O) by lia. subst.
    destruct b; reflexivity.
  - destruct lo as [|lo].
    + destruct n as [|n]; [reflexivity|].
      cbn. f_equal. apply IH. cbn in H. lia.
    + cbn. apply IH. cbn in H. lia.
Qed.

Lemma substring_cut (a : string) (lo : nat) :
  (lo <= String.length a)%nat ->
  a = (substring 0 lo a ++ substring lo (String.length a - lo) a)%string
  /\ String.length (substring 0 lo a) = lo.
Proof.
  revert lo. induction a as [|x a IH]; intros lo H.
  - cbn in H. assert (lo = O) by lia. subst. now split.
  - destruct lo as [|lo].
    + cbn [substring append String.length Nat.sub]. split; [|reflexivity].
      f_equal. clear. induction a as [|y a IHa]; [reflexivity|].
      cbn. now rewrite <- IHa.
    + cbn in H. destruct (IH lo ltac:(lia)) as [Ha Hl].
      cbn [substring append String.length Nat.sub]. split.
      * now rewrite <- Ha.
      * now rewrite Hl.
Qed.

Lemma find_single_app_none (ch : ascii) (a b : string) :
  strings.find (a ++ b) (String ch "") = None ->
  strings.find a (String ch "") = None /\ strings.find b (String ch "") = None.
Proof.
  induction a as [|x a IH]; intros H.
  - split; [reflexivity | exact H].
  - cbn [append] in H. rewrite find_single_cons in H. rewrite find_single_cons.
    destruct (Ascii.eqb ch x); [discriminate|].
    destruct (strings.find (a ++ b) (String ch "")) eqn:E; [discriminate|].
    destruct (IH eq_refl) as [Ha Hb]. now rewrite Ha.
Qed.

Lemma string_app_assoc (a b d : string) :
  ((a ++ b) ++ d = a ++ b ++ d)%string.
Proof. induction a as [|x a IH]; cbn; [reflexivity | now rewrite IH]. Qed.

Lemma Index_found (s sep : string) :
  0 <= strings.Index s sep ->
  exists m, strings.find s sep = Some m /\ strings.Index s sep = Z.of_nat m.
Proof.
  unfold strings.Index. destruct (strings.find s sep) as [m|]; [eauto | lia].
Qed.

(** The slice taken by [group_name], located in the raw value. *)
Lemma group_name_slice (raw g : string) :
  group_name raw = Ret g ->
  exists pre post,
    raw = (pre ++ g ++ "," ++ post)%string
    /\ strings.len pre = strings.Index raw cn + 3
    /\ strings.find pre "," = None
    /\ strings.find g "," = None.
Proof.
  intros Hg.
  destruct (group_name_cases raw) as [[_ Hp]|[Hle Hr]];
    [rewrite Hp in Hg; discriminate|].
  rewrite Hr in Hg. injection Hg as Hsub. clear Hr.
  change (strings.len cn) with 3 in *.
  pose proof (Index_bounds raw cn) as Hc.
  destruct (Index_found raw "," ltac:(lia)) as (m & Ef & Em).
  rewrite Em in *.
  destruct (find_single_cut _ _ _ Ef) as (post & Hraw & Hlen & Hnone).
  remember (substring 0 m raw) as head eqn:Ehead.
  remember (Z.to_nat (strings.Index raw cn + 3)) as lo eqn:Elo.
  assert (Hlo : (lo <= m)%nat) by lia.
  replace (Z.to_nat (Z.of_nat m - (strings.Index raw cn + 3))) with (m - lo)%nat
    in Hsub by lia.
  destruct (substring_cut head lo ltac:(lia)) as [Hhead Hprelen].
  rewrite Hlen in Hhead.
  assert (Hslice : substring lo (m - lo) raw = substring lo (m - lo) head).
  { rewrite Hraw. apply substring_app_l. lia. }
  rewrite Hslice in Hsub.
  rewrite Hhead in Hnone. apply find_single_app_none in Hnone.
  destruct Hnone as [Hpre Hgn]. rewrite Hsub in *.
  exists (substring 0 lo head), post. split; [|split; [|split]].
  - rewrite Hraw. rewrite Hhead at 1. now rewrite string_app_assoc.
  - unfold strings.len. rewrite Hprelen. lia.
  - exact Hpre.
  - exact Hgn.
Qed.

(** X1. Whenever a group name is extracted, the raw value reads
    [pre ++ name ++ "," ++ post], where [pre] has the length of the marker's
    offset plus three and neither [pre] nor the name contains a comma. *)
Theorem group_name_shape (raw g : string) :
  group_name raw = Ret g ->
  exists pre post,
    raw = (pre ++ g ++ "," ++ post)%string
    /\ strings.len pre = strings.Index raw cn + 3
    /\ strings.Contains pre "," = false
    /\ strings.Contains g "," = false.
Proof.
  intros H. destruct (group_name_slice raw g H) as (pre & post & Hraw & Hlen & Hp & Hg).
  exists pre, post. split; [exact Hraw | split; [exact Hlen | split]];
    now apply Contains_false_find.
Qed.

Lemma group_name_shape_witness :
  exists pre post,
    "uid=x;cn=admins,ou=groups" = (pre ++ "admins" ++ "," ++ post)%string
    /\ strings.len pre = strings.Index "uid=x;cn=admins,ou=groups" cn + 3
    /\ strings.Contains pre "," = false
    /\ strings.Contains "admins" "," = false.
Proof.
  apply (group_name_shape "uid=x;cn=admins,ou=groups" "admins"). reflexivity.
Defined.



Lemma range_rawMemberOf_acc (rawMemberOf acc names : list string) :
  range_rawMemberOf rawMemberOf acc = Ret names ->
  exists new,
    names = (acc ++ new)%list
    /\ Forall2 (fun raw g => group_name raw = Ret g) rawMemberOf new.
Proof.
  revert acc. induction rawMemberOf as [|raw rest IH]; intros acc; simpl.
  - intros H; inversion H; subst. exists []. split; [now rewrite app_nil_r | constructor].
  - destruct (group_name raw) as [g|f|p] eqn:E; try discriminate.
    intros H. destruct (IH _ H) as (new & -> & Hall).
    exists (g :: new). split; [now rewrite <- app_assoc | now constructor].
Qed.

(** X3. When the loop over the membership values completes, it has produced
    one name per value, in the order of the values, each the extraction of its
    value and free of commas. *)
Theorem range_rawMemberOf_names (rawMemberOf names : list string) :
  range_rawMemberOf rawMemberOf [] = Ret names ->
  List.length names = List.length rawMemberOf
  /\ Forall2 (fun raw g => group_name raw = Ret g
                           /\ strings.Contains g "," = false)
             rawMemberOf names.
Proof.
  intros H. destruct (range_rawMemberOf_acc _ _ _ H) as (new & -> & Hall).
  cbn [app]. split.
  - symmetry. eapply Forall2_length. exact Hall.
  - clear H. induction Hall as [|raw g raws gs Hg _ IH]; [constructor|].
    constructor; [|exact IH]. split; [exact Hg|].
    destruct (group_name_slice raw g Hg) as (_ & _ & _ & _ & _ & Hn).
    now apply Contains_false_find.
Qed.

Lemma range_rawMemberOf_names_witness :
  List.length ["admins"; "staff"] = 2%nat
  /\ Forall2 (fun raw g => group_name raw = Ret g
                           /\ strings.Contains g "," = false)
             ["cn=admins,ou=groups"; "cn=staff,ou=groups"] ["admins"; "staff"].
Proof.
  apply (range_rawMemberOf_names ["cn=admins,ou=groups"; "cn=staff,ou=groups"]
           ["admins"; "staff"]).
  reflexivity.
Defined.

(* ================================================================= *)
(** ** The identity of a record (lines 214-221) *)

Lemma entry_username_no_at (entry : ldap.Entry) (name : string) :
  entry_username entry = Ret name -> strings.Contains name "@" = false.
Proof.
  unfold entry_username.
  destruct (strings.Contains (ldap.GetAttributeValue entry "uid") "@") eqn:E.
  - apply Contains_true_find in E. destruct E as [m E].
    destruct (Split_single_first _ _ _ E) as [rest ->].
    rewrite index_head. intros H; inversion H; subst.
    destruct (find_single_cut _ _ _ E) as (_ & _ & _ & Hnone).
    now apply Contains_false_find.
  - intros H; inversion H; subst. exact E.
Qed.

(** X4. No record built by the loop over the entries has an [@] in its
    identity, whatever the directory returned. *)
Theorem identities_have_no_at (W : World) (inv : Invocation)
        (entries : list ldap.Entry) (Users : list User) (t t' : trace) :
  range_entries W inv entries [] t = (Ret Users, t') ->
  Forall (fun u => strings.Contains (Uid u) "@" = false) Users.
Proof.
  intros H. destruct (range_entries_each _ _ _ _ _ _ _ H) as (new & -> & Hall).
  cbn [app]. clear H.
  induction Hall as [|e u es us (ta & tb & Hu) _ IH]; [constructor|]. constructor.
  - destruct (entry_User_inv _ _ _ _ _ _ Hu) as (raw & names & name & _ & _ & Hn & ->).
    cbn [Uid assemble]. exact (entry_username_no_at _ _ Hn).
  - exact IH.
Qed.

Lemma identities_have_no_at_witness :
  Forall (fun u => strings.Contains (Uid u) "@" = false)
         [assemble "admins" Sample.alice ["admins"] "alice";
          assemble "admins" Sample.bob ["admins"] "bob"].
Proof.
  apply (identities_have_no_at Sample.full_directory
           (Sample.group_lookup Sample.cfg "admins" "")
           [Sample.alice; Sample.bob] _ [] []).
  reflexivity.
Defined.

(* ================================================================= *)
(** ** The dial timeout (lines 99-104) *)

(** X5. The dial timeout is five seconds when [DialTimeout] is zero, and
    [DialTimeout] seconds, in nanoseconds, for every non-zero value whose
    product fits 64 bits (up to 9223372036 seconds either way); from
    9223372037 seconds on, within the range of [int], the product wraps
    around and the timeout is not [DialTimeout] seconds. *)
Theorem conntimeout_range (c : AuthkeysConfig) :
  (DialTimeout c = 0 -> conntimeout_of c = 5000000000)
  /\ (DialTimeout c <> 0 -> -9223372036 <= DialTimeout c <= 9223372036 ->
      conntimeout_of c = DialTimeout c * 1000000000)
  /\ (9223372036 < DialTimeout c < 2 ^ 63 ->
      conntimeout_of c <> DialTimeout c * 1000000000
      /\ - 2 ^ 63 <= conntimeout_of c < 2 ^ 63).
Proof.
  unfold conntimeout_of, wrap64. split; [|split].
  - intros ->. reflexivity.
  - intros Hne Hr. destruct (Z.eqb_spec (DialTimeout c) 0); [contradiction|].
    cbn [negb]. rewrite Z.mod_small; lia.
  - intros Hr. destruct (Z.eqb_spec (DialTimeout c) 0); [lia|]. cbn [negb].
    pose proof (Z.mod_pos_bound (DialTimeout c * 1000000000 + 2 ^ 63) (2 ^ 64)
                  ltac:(lia)) as Hb.
    split; lia.
Qed.

Lemma conntimeout_range_witness :
  conntimeout_of Sample.cfg = 5000000000
  /\ conntimeout_of (Variant.with_DialTimeout Sample.cfg 30)
     = DialTimeout (Variant.with_DialTimeout Sample.cfg 30) * 1000000000
  /\ conntimeout_of (Variant.with_DialTimeout Sample.cfg 9223372037)
     <> DialTimeout (Variant.with_DialTimeout Sample.cfg 9223372037) * 1000000000.
Proof.
  split; [|split].
  - apply (proj1 (conntimeout_range Sample.cfg)). reflexivity.
  - apply (proj1 (proj2 (conntimeout_range
                           (Variant.with_DialTimeout Sample.cfg 30)))); cbn; lia.
  - apply (proj1 (proj2 (proj2 (conntimeout_range
                           (Variant.with_DialTimeout Sample.cfg 9223372037)))
                    ltac:(cbn; lia))).
Defined.

(* ================================================================= *)
(** ** Facts about the stages of a run *)

Lemma parse_mode_group (inv : Invocation) (t : trace) :
  groupPtr inv <> "" -> parse_mode inv t = (Ret (true, ""), t).
Proof.
  intros H. unfold parse_mode. apply String.eqb_neq in H. now rewrite H.
Qed.

Lemma parse_mode_user (inv : Invocation) (prog user : string) (t : trace) :
  groupPtr inv = "" -> os_Args inv = [prog; user] ->
  parse_mode inv t = (Ret (false, (user ++ UserPostfix (config inv))%string), t).
Proof. intros Hg Ha. unfold parse_mode. now rewrite Hg, Ha. Qed.

Lemma parse_mode_usage (inv : Invocation) (t : trace) :
  groupPtr inv = "" -> List.length (os_Args inv) <> 2%nat ->
  parse_mode inv t = (Fatal FatalUsage, t).
Proof.
  intros Hg Ha. unfold parse_mode. rewrite Hg. cbn [String.eqb negb].
  destruct (Z.eqb_spec (Z.of_nat (List.length (os_Args inv))) 2); [lia | reflexivity].
Qed.

Lemma parse_mode_no_panic (inv : Invocation) (t t' : trace) (p : panic) :
  parse_mode inv t <> (Panic p, t').
Proof.
  unfold parse_mode, bind, lift, log_Fatal, ret.
  destruct (negb (groupPtr inv =? "")%string); [discriminate|].
  destruct (Z.eqb_spec (Z.of_nat (List.length (os_Args inv))) 2) as [Hl|Hl];
    [|discriminate]. cbn [negb].
  destruct (os_Args inv) as [|a0 [|a1 [|a2 rest]]]; cbn in Hl; try lia.
  discriminate.
Qed.

(** What [defer l.Close()] adds to the body it guards. *)
Lemma defer_close_cases {A : Type} (m : M A) (t : trace) :
  (exists f, fst (m t) = Fatal f /\ defer l_Close m t = (Fatal f, snd (m t)))
  \/ ((forall f, fst (m t) <> Fatal f)
      /\ defer l_Close m t = (fst (m t), EvClose :: snd (m t))).
Proof.
  unfold defer, l_Close, emit.
  destruct (m t) as [[a|f|p] t']; cbn.
  - right. split; [discriminate | reflexivity].
  - left. exists f. split; reflexivity.
  - right. split; [discriminate | reflexivity].
Qed.

Ltac crack_events :=
  repeat match goal with
         | H : In _ (_ :: _) |- _ => destruct H as [H|H]
         | H : In _ [] |- _ => destruct H
         | H : EvStartTLS _ = EvStartTLS _ |- _ => injection H as H; subst
         | H : EvBind _ _ = EvBind _ _ |- _ => injection H as ? ?; subst
         | H : @eq event _ _ |- _ => discriminate H
         end.

Ltac stage_leaf :=
  intros; unfold not in *; intros; crack_events; subst;
  try congruence;
  repeat match goal with |- _ /\ _ => split end;
  try reflexivity; try assumption; try congruence;
  try solve [cbn; auto 10];
  try solve [eexists; split; [cbn; eauto 10 | eassumption]];
  try solve [eexists; split; [reflexivity | split; [assumption | reflexivity]]].

(** Everything the first half of [main] guarantees about the handshake and
    the bind. *)
Lemma establish_facts (W : World) (inv : Invocation) (o : outcome (bool * string))
      (t : trace) :
  establish W inv [] = (o, t) ->
  (forall cfg, In (EvStartTLS cfg) t -> tls_config_good W (config inv) cfg)
  /\ (forall dn pw, In (EvBind dn pw) t ->
        dn = BindDN (config inv) /\ pw = BindPW (config inv)
        /\ bind_configured (config inv) = true /\ tls_started W t)
  /\ (forall mode, o = Ret mode ->
        tls_started W t
        /\ (bind_configured (config inv) = true ->
            In (EvBind (BindDN (config inv)) (BindPW (config inv))) t
            /\ conn_Bind W (BindDN (config inv)) (BindPW (config inv)) = true))
  /\ (bind_configured (config inv) = false -> forall dn pw, ~ In (EvBind dn pw) t)
  /\ (forall p, o <> Panic p).
Proof.
  unfold establish. unfold bind at 1.
  destruct (parse_mode inv []) as [[mode|f|p] t0] eqn:Ep.
  - assert (Ht0 : t0 = []).
    { pose proof (parse_mode_silent inv []) as Hs. now rewrite Ep in Hs. }
    subst t0.
    unfold secure, make_tlsConfig, start_tls, bind_service, dial, l_Close,
      bind, emit, ret, log_Fatal.
    change (negb (BindDN (config inv) =? "")%string
            && negb (BindPW (config inv) =? "")%string)
      with (bind_configured (config inv)).
    unfold tls_config_good, expected_roots, tls_started.
    destruct (net_DialTimeout W _ _) eqn:Ed;
      destruct (RootCAFile (config inv) =? "")%string eqn:Er; cbn [negb];
      try destruct (ioutil_ReadFile W (RootCAFile (config inv))) as [pem|] eqn:Ef;
      try destruct (AppendCertsFromPEM W pem) eqn:Ea; cbn [negb];
      try destruct (conn_StartTLS W _) eqn:Es;
      try destruct (handshake_failed W _) eqn:Eh;
      try destruct (bind_configured (config inv)) eqn:Eb;
      try destruct (conn_Bind W _ _) eqn:Ec;
      intros H; injection H as <- <-;
      (split; [|split; [|split; [|split]]]); stage_leaf.
  - assert (Ht0 : t0 = []).
    { pose proof (parse_mode_silent inv []) as Hs. now rewrite Ep in Hs. }
    subst t0. intros H; injection H as <- <-.
    split; [|split; [|split; [|split]]]; stage_leaf.
  - elim (parse_mode_no_panic inv [] t0 p Ep).
Qed.

(* ================================================================= *)
(** ** Order of the stages: nothing is sent before its guard *)

Section Guard.

Variable guarded : event -> Prop.
Variable ready : trace -> Prop.
Hypothesis ready_cons : forall e t, ready t -> ready (e :: t).

Lemma guarded_by_cons_ready (e : event) (t : trace) :
  guarded_by guarded ready t -> ready t -> guarded_by guarded ready (e :: t).
Proof.
  intros Hg Hr after e' before Heq Hgd.
  destruct after as [|x after]; cbn in Heq; injection Heq as -> ->.
  - exact Hr.
  - now apply (Hg after e' before).
Qed.

Lemma guarded_by_cons_free (e : event) (t : trace) :
  guarded_by guarded ready t -> ~ guarded e -> guarded_by guarded ready (e :: t).
Proof.
  intros Hg Hn after e' before Heq Hgd.
  destruct after as [|x after]; cbn in Heq; injection Heq as -> ->.
  - contradiction.
  - now apply (Hg after e' before).
Qed.

Lemma guarded_by_nil : guarded_by guarded ready [].
Proof. intros [|x after] e before Heq; discriminate. Qed.

(** Once ready, any further event keeps the trace guarded and ready. *)
Lemma guarded_ready_allows (e : event) :
  allows (fun t => guarded_by guarded ready t /\ ready t) e.
Proof.
  intros t [Hg Hr]. split; [now apply guarded_by_cons_ready | now apply ready_cons].
Qed.

(** Before that, events that need no guard keep it guarded. *)
Lemma guarded_free_allows (e : event) :
  ~ guarded e -> allows (guarded_by guarded ready) e.
Proof. intros Hn t Hg. now apply guarded_by_cons_free. Qed.

End Guard.

Lemma tls_started_cons (W : World) (e : event) (t : trace) :
  tls_started W t -> tls_started W (e :: t).
Proof. intros (cfg & Hin & Hok). exists cfg. split; [now right | exact Hok]. Qed.

Lemma bound_cons (W : World) (c : AuthkeysConfig) (e : event) (t : trace) :
  bound W c t -> bound W c (e :: t).
Proof. intros [Hin Hok]. split; [now right | exact Hok]. Qed.

Lemma make_tlsConfig_preserves (P : trace -> Prop) (W : World) (inv : Invocation) :
  (forall fname, allows P (EvReadFile fname)) ->
  preserves P (make_tlsConfig W inv).
Proof. intros HP. unfold make_tlsConfig. preserve. Qed.

Lemma bind_service_preserves (P : trace -> Prop) (W : World) (inv : Invocation) :
  (forall dn pw, allows P (EvBind dn pw)) ->
  preserves P (bind_service W inv).
Proof. intros HP. unfold bind_service. preserve. Qed.

(** [main], stage by stage. *)
Lemma run_unfold (W : World) (inv : Invocation) :
  run W inv =
  match parse_mode inv [] with
  | (Ret mode, t0) =>
      match dial W inv t0 with
      | (Ret _, t1) =>
          defer l_Close
            (fun t =>
               match make_tlsConfig W inv t with
               | (Ret cfg, t2) =>
                   if conn_StartTLS W cfg then
                     match bind_service W inv (EvStartTLS cfg :: t2) with
                     | (Ret _, t4) => lookup W inv (fst mode) (snd mode) t4
                     | (Fatal f, t4) => (Fatal f, t4)
                     | (Panic p, t4) => (Panic p, t4)
                     end
                   else if handshake_failed W cfg
                        then (Fatal FatalStartTLS, EvClose :: EvStartTLS cfg :: t2)
                        else (Fatal FatalStartTLS, EvStartTLS cfg :: t2)
               | (Fatal f, t2) => (Fatal f, t2)
               | (Panic p, t2) => (Panic p, t2)
               end) t1
      | (Fatal f, t1) => (Fatal f, t1)
      | (Panic p, t1) => (Panic p, t1)
      end
  | (Fatal f, t0) => (Fatal f, t0)
  | (Panic p, t0) => (Panic p, t0)
  end.
Proof.
  unfold run, main. unfold bind at 1.
  destruct (parse_mode inv []) as [[mode|f|p] t0]; try reflexivity.
  unfold bind at 1.
  destruct (dial W inv t0) as [[[]|f|p] t1]; try reflexivity.
  unfold defer, secure, start_tls, bind, emit, ret, log_Fatal.
  destruct (make_tlsConfig W inv t1) as [[cfg|f|p] t2]; try reflexivity.
  destruct (conn_StartTLS W cfg); [reflexivity|].
  destruct (handshake_failed W cfg); reflexivity.
Qed.

Lemma defer_close_preserves (P : trace -> Prop) {A : Type} (m : M A) :
  allows P EvClose -> preserves P m -> preserves P (defer l_Close m).
Proof.
  intros Hc Hm t Ht. specialize (Hm t Ht).
  destruct (defer_close_cases m t) as [(f & _ & ->)|[_ ->]]; cbn [snd].
  - exact Hm.
  - now apply Hc.
Qed.

(** X6. In every run, whatever its outcome, each bind and each search was
    sent after a TLS handshake on this connection had succeeded: credentials
    and queries never travel before the channel is encrypted. *)
Theorem traffic_behind_tls (W : World) (inv : Invocation) :
  guarded_by traffic (tls_started W) (snd (run W inv)).
Proof.
  set (G := guarded_by traffic (tls_started W)).
  assert (Hfree : forall e, ~ traffic e -> allows G e)
    by (intros e He; now apply guarded_free_allows).
  assert (Hready : forall e, allows (fun t => G t /\ tls_started W t) e)
    by (intros e; apply guarded_ready_allows; apply tls_started_cons).
  rewrite run_unfold.
  pose proof (parse_mode_silent inv []) as Hs.
  destruct (parse_mode inv []) as [[mode|f|p] t0]; cbn in Hs; subst t0;
    try apply guarded_by_nil.
  assert (Hd : G (snd (dial W inv []))).
  { apply dial_preserves; [| |apply guarded_by_nil]; intros; apply Hfree; auto. }
  destruct (dial W inv []) as [[[]|f|p] t1]; cbn [snd] in Hd |- *; try exact Hd.
  apply defer_close_preserves; [apply Hfree; auto | | exact Hd].
  intros t Ht.
  assert (Hm : G (snd (make_tlsConfig W inv t))).
  { apply make_tlsConfig_preserves; [|exact Ht]. intros; apply Hfree; auto. }
  destruct (make_tlsConfig W inv t) as [[cfg|f|p] t2]; cbn [snd] in Hm |- *;
    try exact Hm.
  destruct (conn_StartTLS W cfg) eqn:Es; cbn [snd].
  - assert (H3 : G (EvStartTLS cfg :: t2) /\ tls_started W (EvStartTLS cfg :: t2)).
    { split; [apply Hfree; auto | exists cfg; split; [now left | exact Es]]. }
    assert (Hb : G (snd (bind_service W inv (EvStartTLS cfg :: t2)))
                 /\ tls_started W (snd (bind_service W inv (EvStartTLS cfg :: t2)))).
    { apply (bind_service_preserves (fun t => G t /\ tls_started W t));
        [intros; apply Hready | exact H3]. }
    destruct (bind_service W inv (EvStartTLS cfg :: t2)) as [[[]|f|p] t4];
      cbn [snd] in Hb |- *; try exact (proj1 Hb).
    apply (lookup_preserves (fun t => G t /\ tls_started W t));
      [intros; apply Hready | intros; apply Hready | exact Hb].
  - destruct (handshake_failed W cfg); cbn [snd];
      repeat (apply Hfree; auto).
Qed.

(** X7. Every handshake a run attempts verifies the server (no
    [InsecureSkipVerify]), names the configured server, and carries the
    configured trust root: none without [RootCAFile], otherwise the text of
    that file, read and accepted.  So with a [RootCAFile] that cannot be read
    or parsed no handshake is attempted at all. *)
Theorem handshakes_use_configured_trust (W : World) (inv : Invocation)
        (cfg : tls_Config) :
  In (EvStartTLS cfg) (snd (run W inv)) ->
  tls_config_good W (config inv) cfg.
Proof.
  set (P := fun t : trace =>
              forall cfg, In (EvStartTLS cfg) t -> tls_config_good W (config inv) cfg).
  assert (HP : forall e, (forall c, e <> EvStartTLS c) -> allows P e).
  { intros e He t Ht c [Heq|Hin]; [now elim (He c) | now apply Ht]. }
  enough (H : P (snd (run W inv))) by (apply H).
  destruct (establish W inv []) as [[mode|f|p] t] eqn:E;
    destruct (establish_facts W inv _ _ E) as (Hgood & _ & _ & _ & Hnp).
  - rewrite (main_after_establish _ _ _ _ E).
    apply defer_close_preserves; [apply HP; discriminate | | exact Hgood].
    apply lookup_preserves; intros; apply HP; discriminate.
  - rewrite (main_establish_fatal _ _ _ _ E). exact Hgood.
  - now elim (Hnp p).
Qed.

Lemma handshakes_use_configured_trust_witness :
  tls_config_good (Variant.world_with_file "PEM" [Sample.alice])
    (Variant.with_RootCAFile Sample.cfg "/etc/ca.pem")
    {| InsecureSkipVerify := false; ServerName := "ldap.example.com";
       RootCAs := Some "PEM" |}.
Proof.
  apply (handshakes_use_configured_trust
           (Variant.world_with_file "PEM" [Sample.alice])
           (Sample.user_lookup (Variant.with_RootCAFile Sample.cfg "/etc/ca.pem")
                               "alice")).
  vm_compute. auto 10.
Defined.

(** X8. With a service identity configured (both [BindDN] and [BindPW]),
    every search of a run was sent after that identity had been presented
    and accepted; with either part missing, no bind is ever sent. *)
Theorem searches_behind_bind (W : World) (inv : Invocation) :
  (bind_configured (config inv) = true ->
   guarded_by is_search (bound W (config inv)) (snd (run W inv)))
  /\ (bind_configured (config inv) = false ->
      forall dn pw, ~ In (EvBind dn pw) (snd (run W inv))).
Proof.
  split; intros Hcfg.
  - set (G := guarded_by is_search (bound W (config inv))).
    assert (Hfree : forall e, ~ is_search e -> allows G e)
      by (intros e He; now apply guarded_free_allows).
    assert (Hready : forall e, allows (fun t => G t /\ bound W (config inv) t) e)
      by (intros e; apply guarded_ready_allows; apply bound_cons).
    rewrite run_unfold.
    pose proof (parse_mode_silent inv []) as Hs.
    destruct (parse_mode inv []) as [[mode|f|p] t0]; cbn in Hs; subst t0;
      try apply guarded_by_nil.
    assert (Hd : G (snd (dial W inv []))).
    { apply dial_preserves; [| |apply guarded_by_nil]; intros; apply Hfree; auto. }
    destruct (dial W inv []) as [[[]|f|p] t1]; cbn [snd] in Hd |- *; try exact Hd.
    apply defer_close_preserves; [apply Hfree; auto | | exact Hd].
    intros t Ht.
    assert (Hm : G (snd (make_tlsConfig W inv t))).
    { apply make_tlsConfig_preserves; [|exact Ht]. intros; apply Hfree; auto. }
    destruct (make_tlsConfig W inv t) as [[cfg|f|p] t2]; cbn [snd] in Hm |- *;
      try exact Hm.
    assert (H3 : G (EvStartTLS cfg :: t2)) by (apply Hfree; auto).
    destruct (conn_StartTLS W cfg); cbn [snd];
      [|destruct (handshake_failed W cfg); cbn [snd];
        [apply Hfree; auto|]; exact H3].
    unfold bind_service.
    change (negb (BindDN (config inv) =? "")%string
            && negb (BindPW (config inv) =? "")%string)
      with (bind_configured (config inv)).
    rewrite Hcfg. unfold bind, emit, ret, log_Fatal.
    assert (H4 : G (EvBind (BindDN (config inv)) (BindPW (config inv))
                      :: EvStartTLS cfg :: t2)) by (apply Hfree; auto).
    destruct (conn_Bind W (BindDN (config inv)) (BindPW (config inv))) eqn:Eb;
      cbn [snd]; [|exact H4].
    apply (lookup_preserves (fun t => G t /\ bound W (config inv) t));
      [intros; apply Hready | intros; apply Hready |].
    split; [exact H4 | split; [now left | exact Eb]].
  - set (P := fun t : trace => forall dn pw, ~ In (EvBind dn pw) t).
    assert (HP : forall e, (forall dn pw, e <> EvBind dn pw) -> allows P e).
    { intros e He t Ht dn pw [Heq|Hin]; [now elim (He dn pw) | exact (Ht dn pw Hin)]. }
    enough (H : P (snd (run W inv))) by (apply H).
    destruct (establish W inv []) as [[mode|f|p] t] eqn:E;
      destruct (establish_facts W inv _ _ E) as (_ & _ & _ & Hnb & Hnp).
    + rewrite (main_after_establish _ _ _ _ E).
      apply defer_close_preserves; [apply HP; discriminate | | exact (Hnb Hcfg)].
      apply lookup_preserves; intros; apply HP; discriminate.
    + rewrite (main_establish_fatal _ _ _ _ E). exact (Hnb Hcfg).
    + now elim (Hnp p).
Qed.

Lemma searches_behind_bind_witness :
  guarded_by is_search
    (bound (Sample.world (fun _ => Some [Sample.alice]))
           (Variant.with_bind Sample.cfg "cn=svc" "secret"))
    (snd (run (Sample.world (fun _ => Some [Sample.alice]))
              (Sample.user_lookup (Variant.with_bind Sample.cfg "cn=svc" "secret")
                                  "alice")))
  /\ ~ In (EvBind "" "")
          (snd (run Sample.full_directory (Sample.user_lookup Sample.cfg "alice"))).
Proof.
  split.
  - apply (proj1 (searches_behind_bind
                    (Sample.world (fun _ => Some [Sample.alice]))
                    (Sample.user_lookup
                       (Variant.with_bind Sample.cfg "cn=svc" "secret") "alice"))).
    reflexivity.
  - apply (proj2 (searches_behind_bind Sample.full_directory
                    (Sample.user_lookup Sample.cfg "alice"))).
    reflexivity.
Defined.

(* ================================================================= *)
(** ** What a run prints (lines 181-248) *)

Lemma stdout_app (a b : trace) :
  stdout (a ++ b)%list = (stdout b ++ stdout a)%list.
Proof. unfold stdout. now rewrite flat_map_app, rev_app_distr. Qed.

Lemma stdout_prints (lines : list string) :
  stdout (rev (map EvPrint lines)) = lines.
Proof.
  induction lines as [|l ls IH]; [reflexivity|].
  cbn [map rev]. rewrite stdout_app, IH. reflexivity.
Qed.

Lemma range_keys_trace (keys : list string) (t : trace) :
  range_keys keys t
  = (Ret tt, (rev (map EvPrint (map (fun key => key ++ newline)%string keys)) ++ t)%list).
Proof.
  revert t. induction keys as [|k ks IH]; intros t; [reflexivity|].
  cbn [range_keys map rev]. unfold bind, print_line, emit.
  rewrite IH. now rewrite <- app_assoc.
Qed.

Lemma establish_mode (W : World) (inv : Invocation) (mode : bool * string)
      (t : trace) :
  establish W inv [] = (Ret mode, t) -> parse_mode inv [] = (Ret mode, []).
Proof.
  unfold establish, bind.
  pose proof (parse_mode_silent inv []) as Hs.
  destruct (parse_mode inv []) as [[m|f|p] t0]; cbn in Hs; subst t0;
    try discriminate.
  destruct (dial W inv []) as [[[]|f|p] t1]; try discriminate.
  destruct (secure W inv t1) as [[[]|f|p] t2]; try discriminate.
  intros H; injection H as <- _. reflexivity.
Qed.

(** X9. A key lookup that finds exactly one entry prints the values of the
    configured key attribute of that entry, one per line and in the
    directory's order, then returns and closes the connection; an entry
    without that attribute makes it print nothing and still succeed. *)
Theorem key_lookup_prints_keys (W : World) (inv : Invocation) (username : string)
        (t : trace) (entry : ldap.Entry) :
  establish W inv [] = (Ret (false, username), t) ->
  conn_Search W (searchRequest_of inv false username) = Some [entry] ->
  fst (run W inv) = Ret tt
  /\ stdout (snd (run W inv))
     = map (fun key => key ++ newline)%string
           (ldap.GetAttributeValues entry (KeyAttribute (config inv)))
  /\ exists t', snd (run W inv) = EvClose :: t'.
Proof.
  intros He Hs.
  rewrite (main_after_establish _ _ _ _ He). cbn [fst snd].
  unfold defer. rewrite (lookup_Some _ _ _ _ _ _ Hs).
  unfold bind, check_entries, report, ret, l_Close, emit.
  cbn [List.length Z.of_nat Z.eqb negb andb Z.ltb Z.compare Pos.compare
       Pos.compare_cont Pos.of_succ_nat range_key_entries].
  unfold bind. rewrite range_keys_trace. cbn [fst snd ret].
  split; [reflexivity | split; [|eauto]].
  rewrite stdout_cons, stdout_app, stdout_cons, (establish_no_print _ _ _ _ He).
  cbn [app]. rewrite app_nil_r. apply stdout_prints.
Qed.

Lemma key_lookup_prints_keys_witness :
  stdout (snd (run (Sample.world
                      (fun _ => Some [[("sshPublicKey", ["ssh-rsa AAAA"; "ssh-ed25519 BBBB"])]]))
                   (Sample.user_lookup Sample.cfg "alice")))
  = map (fun key => key ++ newline)%string ["ssh-rsa AAAA"; "ssh-ed25519 BBBB"].
Proof.
  exact (proj1 (proj2 (key_lookup_prints_keys
           (Sample.world
              (fun _ => Some [[("sshPublicKey", ["ssh-rsa AAAA"; "ssh-ed25519 BBBB"])]]))
           (Sample.user_lookup Sample.cfg "alice") "alice" _
           [("sshPublicKey", ["ssh-rsa AAAA"; "ssh-ed25519 BBBB"])]
           eq_refl eq_refl))).
Defined.

Lemma range_entries_no_print (W : World) (inv : Invocation)
      (entries : list ldap.Entry) (acc : list User) (t : trace) :
  stdout (snd (range_entries W inv entries acc t)) = stdout t.
Proof.
  apply (range_entries_preserves (fun t' => stdout t' = stdout t));
    [|reflexivity].
  intros req t' H. rewrite stdout_cons, H. apply app_nil_r.
Qed.

(** X10. A group listing prints all or nothing: either the run does not
    return and nothing was written to standard output, or it returns and
    wrote exactly one line, the encoding of a list with one record for each
    entry the directory returned. *)
Theorem group_output_all_or_nothing (W : World) (inv : Invocation) :
  groupPtr inv <> "" ->
  (fst (run W inv) <> Ret tt /\ stdout (snd (run W inv)) = [])
  \/ (exists entries Users doc,
         fst (run W inv) = Ret tt
         /\ conn_Search W (searchRequest_of inv true "") = Some entries
         /\ List.length Users = List.length entries
         /\ json_Marshal W Users = Some doc
         /\ stdout (snd (run W inv)) = [(doc ++ newline)%string]).
Proof.
  intros Hg.
  destruct (establish W inv []) as [[mode|f|p] t] eqn:E.
  - pose proof (establish_mode _ _ _ _ E) as Hm.
    rewrite (parse_mode_group inv [] Hg) in Hm. injection Hm as <-.
    pose proof (establish_no_print _ _ _ _ E) as Hp.
    rewrite (main_after_establish _ _ _ _ E). cbn [fst snd].
    unfold defer, lookup, l_Search, l_Close, bind, emit, ret, log_Fatal.
    set (req := searchRequest_of inv true "").
    assert (Hp1 : stdout (EvSearch req :: t) = []).
    { rewrite stdout_cons, Hp. reflexivity. }
    destruct (conn_Search W req) as [entries|] eqn:Es;
      [|left; split; [discriminate | exact Hp1]].
    unfold check_entries, log_Fatal, ret.
    destruct (Z.eqb_spec (Z.of_nat (List.length entries)) 0);
      [left; split; [discriminate | exact Hp1]|].
    cbn [negb andb]. unfold report, bind.
    pose proof (range_entries_no_print W inv entries [] (EvSearch req :: t)) as Hr.
    rewrite Hp1 in Hr.
    destruct (range_entries W inv entries [] (EvSearch req :: t))
      as [[Users|f|p] t2] eqn:Er; cbn [snd] in Hr.
    + unfold print_line, emit, log_Fatal.
      destruct (json_Marshal W Users) as [doc|] eqn:Ej.
      * right. exists entries, Users, doc. cbn [fst snd].
        split; [reflexivity | split; [reflexivity | split; [|split; [exact Ej|]]]].
        -- destruct (range_entries_each _ _ _ _ _ _ _ Er) as (new & -> & Hall).
           cbn [app]. symmetry. eapply Forall2_length. exact Hall.
        -- rewrite stdout_cons, stdout_cons, Hr. reflexivity.
      * left. split; [discriminate | exact Hr].
    + left. split; [discriminate | exact Hr].
    + left. cbn [fst snd]. split; [discriminate|]. rewrite stdout_cons, Hr. reflexivity.
  - rewrite (main_establish_fatal _ _ _ _ E). left.
    split; [discriminate | exact (establish_no_print _ _ _ _ E)].
  - destruct (establish_facts W inv _ _ E) as (_ & _ & _ & _ & Hnp). now elim (Hnp p).
Qed.

Lemma group_output_all_or_nothing_witness :
  (fst (run (Sample.minimal_directory [])
            (Sample.group_lookup (Sample.cfg_with_identity "sAMAccountName")
                                 "admins" "1")) <> Ret tt
   /\ stdout (snd (run (Sample.minimal_directory [])
                       (Sample.group_lookup (Sample.cfg_with_identity "sAMAccountName")
                                            "admins" "1"))) = [])
  \/ (exists entries Users doc,
         fst (run (Sample.minimal_directory [])
                  (Sample.group_lookup (Sample.cfg_with_identity "sAMAccountName")
                                       "admins" "1")) = Ret tt
         /\ conn_Search (Sample.minimal_directory [])
              (searchRequest_of
                 (Sample.group_lookup (Sample.cfg_with_identity "sAMAccountName")
                                      "admins" "1") true "") = Some entries
         /\ List.length Users = List.length entries
         /\ json_Marshal (Sample.minimal_directory []) Users = Some doc
         /\ stdout (snd (run (Sample.minimal_directory [])
                             (Sample.group_lookup
                                (Sample.cfg_with_identity "sAMAccountName")
                                "admins" "1"))) = [(doc ++ newline)%string]).
Proof.
  apply (group_output_all_or_nothing (Sample.minimal_directory [])
           (Sample.group_lookup (Sample.cfg_with_identity "sAMAccountName")
                                "admins" "1")).
  discriminate.
Defined.

(* ================================================================= *)
(** ** The searches of a run (lines 148-201) *)

Lemma entry_User_plain_trace (W : World) (inv : Invocation) (entry : ldap.Entry)
      (t : trace) :
  minPtr inv = "" -> snd (entry_User W inv entry t) = t.
Proof.
  intros Hmin. unfold entry_User, bind, lift, ret.
  rewrite (entry_rawMemberOf_plain W inv entry t Hmin).
  destruct (range_rawMemberOf _ []); try reflexivity.
  destruct (entry_username entry); reflexivity.
Qed.

Lemma range_entries_plain_trace (W : World) (inv : Invocation)
      (entries : list ldap.Entry) (acc : list User) (t : trace) :
  minPtr inv = "" -> snd (range_entries W inv entries acc t) = t.
Proof.
  intros Hmin. revert acc. induction entries as [|e es IH]; intros acc;
    [reflexivity|].
  cbn [range_entries]. unfold bind.
  pose proof (entry_User_plain_trace W inv e t Hmin) as He.
  destruct (entry_User W inv e t) as [[u|f|p] t0]; cbn [snd] in He; subst t0;
    try reflexivity.
  apply IH.
Qed.

Lemma range_key_entries_no_search (attribute : string) (entries : list ldap.Entry)
      (t : trace) :
  searches (snd (range_key_entries attribute entries t)) = searches t.
Proof.
  apply (range_key_entries_preserves (fun t' => searches t' = searches t));
    [|reflexivity].
  intros s t' H. rewrite searches_cons, H. apply app_nil_r.
Qed.

(** Without per-member queries the report sends nothing. *)
Lemma report_no_search (W : World) (inv : Invocation) (listUsers : bool)
      (entries : list ldap.Entry) (t : trace) :
  listUsers = false \/ minPtr inv = "" ->
  searches (snd (report W inv listUsers entries t)) = searches t.
Proof.
  intros Hmode. unfold report. destruct listUsers.
  - destruct Hmode as [Hl|Hmin]; [discriminate|].
    unfold bind.
    pose proof (range_entries_plain_trace W inv entries [] t Hmin) as Hr.
    destruct (range_entries W inv entries [] t) as [[Users|f|p] t0];
      cbn [snd] in Hr; subst t0; try reflexivity.
    unfold print_line, emit, log_Fatal.
    destruct (json_Marshal W Users); [|reflexivity].
    cbn [snd]. rewrite searches_cons. apply app_nil_r.
  - apply range_key_entries_no_search.
Qed.

(** X11. A key lookup, and a group listing without the [-min] flag, send
    at most one search in the whole run, and it is the primary request of the
    mode. *)
Theorem at_most_the_primary_search (W : World) (inv : Invocation) :
  groupPtr inv = "" \/ minPtr inv = "" ->
  searches (snd (run W inv)) = []
  \/ exists mode,
       parse_mode inv [] = (Ret mode, [])
       /\ searches (snd (run W inv)) = [searchRequest_of inv (fst mode) (snd mode)].
Proof.
  intros Hmode.
  destruct (establish W inv []) as [[mode|f|p] t] eqn:E.
  - right. exists mode. split; [exact (establish_mode _ _ _ _ E)|].
    pose proof (establish_no_search _ _ _ _ E) as Hn.
    assert (Hmode' : fst mode = false \/ minPtr inv = "").
    { destruct Hmode as [Hg|Hmin]; [left | now right].
      pose proof (establish_mode _ _ _ _ E) as Hm.
      unfold parse_mode in Hm. rewrite Hg in Hm. cbn [String.eqb negb] in Hm.
      destruct (negb (Z.of_nat (List.length (os_Args inv)) =? 2)); [discriminate|].
      unfold bind, lift, ret in Hm.
      destruct (index (os_Args inv) 1); try discriminate.
      now injection Hm as <-. }
    rewrite (main_after_establish _ _ _ _ E).
    set (req := searchRequest_of inv (fst mode) (snd mode)).
    assert (Hbody : searches (snd (lookup W inv (fst mode) (snd mode) t)) = [req]).
    { unfold lookup, l_Search, bind, emit, ret, log_Fatal. fold req.
      assert (H1 : searches (EvSearch req :: t) = [req])
        by (rewrite searches_cons, Hn; reflexivity).
      destruct (conn_Search W req) as [entries|]; [|exact H1].
      unfold check_entries, log_Fatal, ret.
      destruct (Z.of_nat (List.length entries) =? 0); [exact H1|].
      destruct (negb (fst mode) && (1 <? Z.of_nat (List.length entries)));
        [exact H1|].
      now rewrite report_no_search. }
    destruct (defer_close_cases (lookup W inv (fst mode) (snd mode)) t)
      as [(f & _ & ->)|[_ ->]]; cbn [snd]; [exact Hbody|].
    rewrite searches_cons, Hbody. reflexivity.
  - left. rewrite (main_establish_fatal _ _ _ _ E).
    exact (establish_no_search _ _ _ _ E).
  - destruct (establish_facts W inv _ _ E) as (_ & _ & _ & _ & Hnp). now elim (Hnp p).
Qed.

Lemma at_most_the_primary_search_witness :
  searches (snd (run Sample.full_directory
                     (Sample.group_lookup Sample.cfg "admins" ""))) = []
  \/ exists mode,
       parse_mode (Sample.group_lookup Sample.cfg "admins" "") [] = (Ret mode, [])
       /\ searches (snd (run Sample.full_directory
                              (Sample.group_lookup Sample.cfg "admins" "")))
          = [searchRequest_of (Sample.group_lookup Sample.cfg "admins" "")
               (fst mode) (snd mode)].
Proof.
  apply (at_most_the_primary_search Sample.full_directory
           (Sample.group_lookup Sample.cfg "admins" "")).
  right. reflexivity.
Defined.

(** X12. A group listing with the [-min] flag that returns has sent the
    primary request and then one per-member request for each entry, in the
    order of the entries, and nothing else. *)
Theorem minimal_listing_searches (W : World) (inv : Invocation) (username : string)
        (t : trace) (entries : list ldap.Entry) :
  establish W inv [] = (Ret (true, username), t) ->
  minPtr inv <> "" ->
  conn_Search W (searchRequest_of inv true username) = Some entries ->
  fst (run W inv) = Ret tt ->
  searches (snd (run W inv))
  = searchRequest_of inv true username :: map (member_request inv) entries.
Proof.
  intros E Hmin Hs.
  pose proof (establish_no_search _ _ _ _ E) as Hn.
  rewrite (main_after_establish _ _ _ _ E). cbn [fst snd].
  unfold defer. rewrite (lookup_Some _ _ _ _ _ _ Hs).
  set (req := searchRequest_of inv true username).
  unfold bind, check_entries, log_Fatal, ret.
  destruct (Z.of_nat (List.length entries) =? 0); [discriminate|].
  cbn [negb andb]. unfold report, bind.
  destruct (range_entries W inv entries [] (EvSearch req :: t))
    as [[Users|f|p] t2] eqn:Er; try discriminate.
  unfold print_line, emit, log_Fatal, l_Close.
  destruct (json_Marshal W Users); [|discriminate].
  cbn [fst snd]. intros _. unfold emit. cbn [snd].
  rewrite !searches_cons, !app_nil_r.
  rewrite (range_entries_searches _ _ _ _ _ _ _ Hmin Er).
  rewrite searches_cons, Hn. reflexivity.
Qed.

Lemma minimal_listing_searches_witness :
  searches (snd (run (Sample.minimal_directory [Sample.alice])
                     (Sample.group_lookup Sample.cfg "admins" "1")))
  = searchRequest_of (Sample.group_lookup Sample.cfg "admins" "1") true ""
      :: map (member_request (Sample.group_lookup Sample.cfg "admins" "1"))
             [Sample.alice_min; Sample.bob_min].
Proof.
  apply (minimal_listing_searches (Sample.minimal_directory [Sample.alice])
           (Sample.group_lookup Sample.cfg "admins" "1") ""
           (snd (establish (Sample.minimal_directory [Sample.alice])
                   (Sample.group_lookup Sample.cfg "admins" "1") []))).
  - reflexivity.
  - discriminate.
  - reflexivity.
  - reflexivity.
Defined.

(* ================================================================= *)
(** ** Configuration file and the deferred close *)

(** X14. A missing configuration file is not an error: [NewConfig] is not
    called, the program runs on the zero configuration, and unless the
    arguments are wrong its first action is to dial [":0"] with the default
    timeout of five seconds. *)
Theorem missing_config_file_runs_on_defaults (H : Host) (W : World)
        (args : list string) (group min : string) :
  os_Stat H (configfile_of H) = false ->
  exists o t,
    program H W args group min = ExitRun o t
    /\ ((o = Fatal FatalUsage /\ t = [])
        \/ exists later, t = (later ++ [EvDial ":0" 5000000000])%list).
Proof.
  intros Hstat. unfold program, load_config. rewrite Hstat.
  set (inv := {| config := zero_config; os_Args := args;
                 groupPtr := group; minPtr := min |}).
  cbn zeta. exists (fst (run W inv)), (snd (run W inv)).
  split; [reflexivity|].
  set (P := fun t : trace => exists later, t = (later ++ [EvDial ":0" 5000000000])%list).
  assert (HP : forall e, allows P e).
  { intros e t [later ->]. exists (e :: later). reflexivity. }
  unfold run. destruct (main W inv []) as [o t] eqn:E. cbn [fst snd].
  revert E. unfold main. unfold bind at 1.
  pose proof (parse_mode_silent inv []) as Hs.
  destruct (parse_mode inv []) as [[mode|f|p] t0] eqn:Ep; cbn in Hs; subst t0.
  - unfold bind at 1. intros E. right.
    assert (Hd : P (snd (dial W inv []))).
    { unfold dial, bind, emit, log_Fatal.
      destruct (net_DialTimeout W _ _); cbn [snd].
      - exists [EvStart]. reflexivity.
      - exists []. reflexivity. }
    destruct (dial W inv []) as [[[]|f|p] t1]; cbn [snd] in Hd.
    + fold (deferred_body W inv mode) in E.
      change t with (snd (o, t)). rewrite <- E.
      apply (defer_close_preserves P); [apply HP | | exact Hd].
      apply deferred_body_preserves. intros e. apply HP.
    + injection E as <- <-. exact Hd.
    + injection E as <- <-. exact Hd.
  - intros E. injection E as <- <-. left.
    split; [|reflexivity]. f_equal. exact (parse_mode_fatal _ _ _ _ Ep).
  - elim (parse_mode_no_panic inv [] [] p Ep).
Qed.

Lemma missing_config_file_runs_on_defaults_witness :
  exists o t,
    program Variant.bare_host Sample.empty_directory ["authkeys"; "bob"] "" ""
    = ExitRun o t
    /\ ((o = Fatal FatalUsage /\ t = [])
        \/ exists later, t = (later ++ [EvDial ":0" 5000000000])%list).
Proof.
  apply (missing_config_file_runs_on_defaults Variant.bare_host
           Sample.empty_directory ["authkeys"; "bob"] "" "").
  reflexivity.
Defined.



Lemma traffic_behind_tls_witness :
  guarded_by traffic
    (tls_started (Sample.world (fun _ => Some [Sample.alice])))
    (snd (run (Sample.world (fun _ => Some [Sample.alice]))
              (Sample.user_lookup (Variant.with_bind Sample.cfg "cn=svc" "secret")
                                  "alice"))).
Proof.
  exact (traffic_behind_tls (Sample.world (fun _ => Some [Sample.alice]))
           (Sample.user_lookup (Variant.with_bind Sample.cfg "cn=svc" "secret")
                               "alice")).
Defined.
